(** * fastapi/utils.py and fastapi/param_functions.py: a shallow embedding

    The utility layer of the framework is embedded function by function.
    Python values that the functions only pass around are kept abstract;
    exceptions are results of an explicit [result] type; objects that the
    code mutates in place (dictionaries, model fields, model classes) live
    in an explicit store indexed by object identity. *)

From Stdlib Require Import ZArith Lia Ascii String List Bool.
From stdpp Require Import gmap strings list fin_maps.
From Equations Require Import Equations.
From Equations.Prop Require Logic.

Set Warnings "-register-all,-clear-no-such-hyp".

Local Open Scope string_scope.
Local Open Scope Z_scope.

(** ** Exceptions and results *)

(** The exception classes the embedded code raises, catches or lets
    through. *)
Inductive exn : Type :=
  | ValueError
  | TypeError
  | KeyError
  | AttributeError
  | RuntimeError
  | OtherRuntimeError (cls : string)
  | PydanticSchemaGenerationError
  | FastAPIError
  | OtherError (cls : string).

(** [isinstance(e, RuntimeError)]: [FastAPIError] derives from
    [RuntimeError], and [OtherRuntimeError] stands for every other class
    that does (pydantic's [ConfigError], [RecursionError], ...);
    [OtherError] stands for the classes that derive neither from
    [RuntimeError] nor from [PydanticSchemaGenerationError]. *)
Definition is_RuntimeError (e : exn) : bool :=
  match e with
  | RuntimeError | OtherRuntimeError _ | FastAPIError => true
  | _ => false
  end.

Definition is_PydanticSchemaGenerationError (e : exn) : bool :=
  match e with
  | PydanticSchemaGenerationError => true
  | _ => false
  end.

Inductive result (A : Type) : Type :=
  | Ret (a : A)
  | Raise (e : exn).
Arguments Ret {A} a.
Arguments Raise {A} e.

(** Sequencing: an exception raised by the first computation propagates.
    With these instances stdpp's [x ← r; k] is the sequencing of two
    statements. *)
#[global] Instance result_ret : MRet result := fun A a => Ret a.
#[global] Instance result_bind : MBind result := fun A B k r =>
  match r with
  | Ret a => k a
  | Raise e => Raise e
  end.

(** A computation reads and writes a store [Σ], and ends with a value or
    an exception; [None] is a recursion that is cut off before its end
    (the recursion budget of the embedding is used up). *)
Definition comp (Σ A : Type) : Type := Σ -> option (result A * Σ).

#[global] Instance comp_ret {Σ} : MRet (comp Σ) := fun A a σ => Some (Ret a, σ).
#[global] Instance comp_bind {Σ} : MBind (comp Σ) := fun A B k m σ =>
  match m σ with
  | Some (Ret a, σ') => k a σ'
  | Some (Raise e, σ') => Some (Raise e, σ')
  | None => None
  end.

Definition raise {Σ A} (e : exn) : comp Σ A := fun σ => Some (Raise e, σ).

(** A call of a total operation of a library. *)
Definition call {Σ A} (op : Σ -> result A * Σ) : comp Σ A :=
  fun σ => Some (op σ).

(** [for x in xs: body(x)] and [[body(x) for x in xs]]. *)
Fixpoint for_each {Σ A} (body : A -> comp Σ unit) (xs : list A) : comp Σ unit :=
  match xs with
  | [] => mret ()
  | x :: rest => _ ← body x; for_each body rest
  end.

Fixpoint comprehension {Σ A B} (body : A -> comp Σ B) (xs : list A)
  : comp Σ (list B) :=
  match xs with
  | [] => mret []
  | x :: rest => y ← body x; ys ← comprehension body rest; mret (y :: ys)
  end.

(** ** The builtin [int] on strings *)

Module PyInt.

(** Characters that [int] skips around the number: the ASCII ones for
    which [str.isspace] holds. *)
Definition is_space (c : ascii) : bool :=
  let n := nat_of_ascii c in
  ((9 <=? n)%nat && (n <=? 13)%nat) || ((28 <=? n)%nat && (n <=? 32)%nat).

Definition is_digit (c : ascii) : bool :=
  let n := nat_of_ascii c in (48 <=? n)%nat && (n <=? 57)%nat.

Definition digit_value (c : ascii) : Z := Z.of_nat (nat_of_ascii c) - 48.

Fixpoint lstrip (l : list ascii) : list ascii :=
  match l with
  | c :: rest => if is_space c then lstrip rest else l
  | [] => []
  end.

Definition strip (l : list ascii) : list ascii :=
  rev (lstrip (rev (lstrip l))).

(** Decimal digits, single underscores allowed between two digits
    (PEP 515).  [prev_digit] tells whether the previous character was a
    digit: the literal starts and ends with one. *)
Fixpoint digits (prev_digit : bool) (acc : Z) (l : list ascii) : option Z :=
  match l with
  | [] => if prev_digit then Some acc else None
  | c :: rest =>
      if is_digit c then digits true (10 * acc + digit_value c) rest
      else if Ascii.eqb c "_" && prev_digit then digits false acc rest
      else None
  end.

Definition signed (l : list ascii) : option Z :=
  match l with
  | "-"%char :: rest => Z.opp <$> digits false 0 rest
  | "+"%char :: rest => digits false 0 rest
  | _ => digits false 0 l
  end.

(** [int(s)] in base 10: [None] is the ValueError "invalid literal for
    int() with base 10". *)
Definition parse (s : string) : option Z :=
  signed (strip (list_ascii_of_string s)).

End PyInt.

(** ** is_body_allowed_for_status_code *)

Module StatusCode.

(** The argument type [Union[int, str, None]]. *)
Inductive status_code : Type :=
  | SCNone
  | SCInt (n : Z)
  | SCStr (s : string).

(** The patterned fields of the OpenAPI specification. *)
Definition patterned : list string :=
  ["default"; "1XX"; "2XX"; "3XX"; "4XX"; "5XX"].

(** [status_code in {...}]: an integer is never equal to a string. *)
Definition in_patterned (sc : status_code) : bool :=
  match sc with
  | SCStr s => existsb (String.eqb s) patterned
  | _ => false
  end.

(** [int(status_code)]. *)
Definition int (sc : status_code) : result Z :=
  match sc with
  | SCInt n => Ret n
  | SCStr s =>
      match PyInt.parse s with
      | Some n => Ret n
      | None => Raise ValueError
      end
  | SCNone => Raise TypeError
  end.

Definition is_body_allowed_for_status_code (sc : status_code) : result bool :=
  match sc with
  | SCNone => Ret true
  | _ =>
      if in_patterned sc then Ret true
      else
        current_status_code ← int sc;
        Ret (negb ((current_status_code <? 200)
                   || (current_status_code =? 204)
                   || (current_status_code =? 304)))
  end.

End StatusCode.

(** ** get_path_param_names *)

Module PathParams.

Definition newline : ascii := ascii_of_nat 10.

(** The tail [(.*?)}] of the pattern, tried at the start of [l]: the
    lazy group first tries to stop (the next character closes the
    brace), and otherwise takes one more character, which [.] accepts
    unless it is a newline.  The result is the captured group and the
    text after the match. *)
Fixpoint lazy_group (l : list ascii) : option (list ascii * list ascii) :=
  match l with
  | [] => None
  | c :: rest =>
      if Ascii.eqb c "}" then Some ([], rest)
      else if Ascii.eqb c newline then None
      else '(group, after) ← lazy_group rest; Some (c :: group, after)
  end.

(** The pattern [{(.*?)}] tried at the start of [l]. *)
Definition match_here (l : list ascii) : option (list ascii * list ascii) :=
  match l with
  | "{"%char :: rest => lazy_group rest
  | _ => None
  end.

Lemma lazy_group_shorter l group after :
  lazy_group l = Some (group, after) -> (length after < length l)%nat.
Proof.
  revert group after. induction l as [|c l IH]; intros group after; simpl.
  - discriminate.
  - destruct (Ascii.eqb c "}").
    + intros [= _ <-]. lia.
    + destruct (Ascii.eqb c newline); [discriminate|].
      destruct (lazy_group l) as [[g a]|]; simpl; [|discriminate].
      intros [= _ <-]. specialize (IH g a eq_refl). lia.
Qed.

Lemma match_here_shorter l group after :
  match_here l = Some (group, after) -> (length after < length l)%nat.
Proof.
  destruct l as [|c l]; simpl; [discriminate|].
  destruct c as [[] [] [] [] [] [] [] []]; try discriminate.
  intros H%lazy_group_shorter. simpl. lia.
Qed.

(** [re.findall]: scan from left to right; where the pattern matches,
    keep the group and go on after the match, elsewhere move one
    character on. *)
Equations? findall (l : list ascii) : list (list ascii) by wf (length l) lt :=
  findall [] := [];
  findall (c :: rest) with Logic.inspect (match_here (c :: rest)) := {
    | exist _ (Some m) Hm := fst m :: findall (snd m);
    | exist _ None _ := findall rest }.
Proof.
  change (match_here (c :: rest) = Some (l, l0)) in Hm.
  apply match_here_shorter in Hm. exact Hm.
Qed.

Definition get_path_param_names (path : string) : gset string :=
  list_to_set (string_of_list_ascii <$> findall (list_ascii_of_string path)).

(** *** Path templates *)

(** A path template is a sequence of literal texts and of parameters
    written between braces. *)
Inductive segment : Type :=
  | Literal (text : string)
  | Param (name : string).

Definition render_segment (seg : segment) : string :=
  match seg with
  | Literal text => text
  | Param name => "{" ++ name ++ "}"
  end.

Fixpoint render (template : list segment) : string :=
  match template with
  | [] => ""
  | seg :: rest => render_segment seg ++ render rest
  end.

(** The names between the braces of a template. *)
Fixpoint declared_names (template : list segment) : list string :=
  match template with
  | [] => []
  | Literal _ :: rest => declared_names rest
  | Param name :: rest => name :: declared_names rest
  end.

(** A literal text has no opening brace; a name has no closing brace
    and no newline. *)
Definition well_formed_segment (seg : segment) : Prop :=
  match seg with
  | Literal text => "{"%char ∉ list_ascii_of_string text
  | Param name =>
      ("}"%char ∉ list_ascii_of_string name)
      /\ (newline ∉ list_ascii_of_string name)
  end.

End PathParams.

(** ** get_value_or_default *)

Module Defaults.
Section Defaults.

(** The values a setting can take. *)
Context {DefaultType : Type}.

(** An item is a concrete value or a [DefaultPlaceholder] wrapping
    one. *)
Inductive item : Type :=
  | Placeholder (value : DefaultType)
  | Concrete (value : DefaultType).

(** [isinstance(item, DefaultPlaceholder)]. *)
Definition is_placeholder (i : item) : bool :=
  match i with
  | Placeholder _ => true
  | Concrete _ => false
  end.

(** The loop [for item in items: if not isinstance(...): return item],
    with the statement after it as the result of the exhausted loop. *)
Fixpoint first_concrete (items : list item) (otherwise : item) : item :=
  match items with
  | [] => otherwise
  | i :: rest =>
      if negb (is_placeholder i) then i else first_concrete rest otherwise
  end.

Definition get_value_or_default (first_item : item) (extra_items : list item)
  : item :=
  let items := first_item :: extra_items in
  first_concrete items first_item.

End Defaults.
Arguments item : clear implicits.
End Defaults.

(** ** The parameter declarators of param_functions.py *)

Module ParamFunctions.
Section ParamFunctions.

(** Python values passed through untouched, and the record classes of
    [fastapi.params], whose constructors are not part of these
    sources: a declarator is given the constructor it forwards to. *)
Context {PyVal Declaration : Type}.

(** The keyword arguments received by [params.Path], [params.Query]
    and the like. *)
Record param_kwargs : Type := {
  kw_default : PyVal;
  kw_alias : option string;
  kw_title : option string;
  kw_description : option string;
  kw_gt : option PyVal;
  kw_ge : option PyVal;
  kw_lt : option PyVal;
  kw_le : option PyVal;
  kw_min_length : option Z;
  kw_max_length : option Z;
  kw_regex : option string;
  kw_example : PyVal;
  kw_examples : option (list (string * PyVal));
  kw_deprecated : option bool;
  kw_include_in_schema : bool;
  kw_extra : list (string * PyVal)
}.

Definition Query (params_Query : param_kwargs -> Declaration)
    (default : PyVal) (alias title description : option string)
    (gt ge lt le : option PyVal) (min_length max_length : option Z)
    (regex : option string) (example : PyVal)
    (examples : option (list (string * PyVal))) (deprecated : option bool)
    (include_in_schema : bool) (extra : list (string * PyVal))
  : Declaration :=
  params_Query
    {| kw_default := default; kw_alias := alias; kw_title := title;
       kw_description := description; kw_gt := gt; kw_ge := ge;
       kw_lt := lt; kw_le := le; kw_min_length := min_length;
       kw_max_length := max_length; kw_regex := regex;
       kw_example := example; kw_examples := examples;
       kw_deprecated := deprecated;
       kw_include_in_schema := include_in_schema; kw_extra := extra |}.

End ParamFunctions.
End ParamFunctions.

(** ** deep_dict_update *)

Module DictUpdate.

(** Object identities. *)
Definition loc : Type := nat.

(** Immutable values. *)
Inductive atom : Type :=
  | ANone
  | ABool (b : bool)
  | AInt (n : Z)
  | AStr (s : string).

(** A Python value is an immutable value or a reference to a mutable
    object. *)
Inductive val : Type :=
  | VAtom (a : atom)
  | VRef (l : loc).

(** The mutable objects: a [dict] keeps its items in insertion order, a
    [list] its elements. *)
Inductive obj : Type :=
  | ODict (items : list (string * val))
  | OList (elems : list val).

Abbreviation store := (gmap loc obj).

(** [d[key]] and [key in d]. *)
Fixpoint dict_get {V : Type} (key : string) (items : list (string * V))
  : option V :=
  match items with
  | [] => None
  | (k, v) :: rest => if decide (k = key) then Some v else dict_get key rest
  end.

(** [d[key] = v]: an existing key keeps its place, a new one goes to
    the end. *)
Fixpoint dict_set {V : Type} (key : string) (v : V)
    (items : list (string * V)) : list (string * V) :=
  match items with
  | [] => [(key, v)]
  | (k, w) :: rest =>
      if decide (k = key) then (k, v) :: rest
      else (k, w) :: dict_set key v rest
  end.

(** [isinstance(v, dict)] and [isinstance(v, list)], with the object. *)
Definition as_dict (σ : store) (v : val) : option (loc * list (string * val)) :=
  match v with
  | VRef l =>
      match σ !! l with
      | Some (ODict items) => Some (l, items)
      | _ => None
      end
  | VAtom _ => None
  end.

Definition as_list (σ : store) (v : val) : option (list val) :=
  match v with
  | VRef l =>
      match σ !! l with
      | Some (OList elems) => Some elems
      | _ => None
      end
  | VAtom _ => None
  end.

(** A new object gets an identity that is not in use. *)
Definition alloc (o : obj) (σ : store) : loc * store :=
  let l := fresh (dom σ) in (l, <[l := o]> σ).

(** [main_dict[key] = v]. *)
Definition setitem (d : loc) (key : string) (v : val) : comp store unit :=
  fun σ =>
    match σ !! d with
    | Some (ODict items) =>
        Some (Ret (), <[d := ODict (dict_set key v items)]> σ)
    | _ => Some (Raise TypeError, σ)
    end.

(** The body of the loop, for one [(key, value)] of [update_dict];
    [self] is the function itself, for the recursive call. *)
Definition update_item (self : loc -> loc -> comp store unit)
    (main_dict update_dict : loc) (key : string) (value : val)
  : comp store unit :=
  fun σ =>
    match σ !! main_dict with
    | Some (ODict mitems) =>
        match dict_get key mitems with
        | Some mv =>
            match as_dict σ mv, as_dict σ value with
            | Some (lm, _), Some (lu, _) => self lm lu σ
            | _, _ =>
                match as_list σ mv with
                | Some melems =>
                    match σ !! update_dict with
                    | Some (ODict uitems) =>
                        match dict_get key uitems with
                        | Some uv =>
                            match as_list σ uv with
                            | Some uelems =>
                                let '(l, σ1) := alloc (OList (melems ++ uelems)) σ in
                                setitem main_dict key (VRef l) σ1
                            | None => setitem main_dict key value σ
                            end
                        | None => Some (Raise KeyError, σ)
                        end
                    | _ => Some (Raise TypeError, σ)
                    end
                | None => setitem main_dict key value σ
                end
            end
        | None => setitem main_dict key value σ
        end
    | _ => Some (Raise TypeError, σ)
    end.

(** [for key, value in update_dict.items()]: the iterator remembers the
    size [n0] of the dictionary and its position; each step first
    checks that the size is still [n0], then reads the item at the
    position from the dictionary as it is now.  [todo] counts the items
    still to visit. *)
Fixpoint for_items (body : string -> val -> comp store unit)
    (update_dict : loc) (n0 todo : nat) : comp store unit :=
  fun σ =>
    match σ !! update_dict with
    | Some (ODict uitems) =>
        if negb (length uitems =? n0)%nat then Some (Raise RuntimeError, σ)
        else
          match todo with
          | O => Some (Ret (), σ)
          | S todo' =>
              match uitems !! (n0 - todo)%nat with
              | Some (key, value) =>
                  match body key value σ with
                  | Some (Ret _, σ') => for_items body update_dict n0 todo' σ'
                  | stop => stop
                  end
              | None => Some (Ret (), σ)
              end
          end
    | _ => Some (Raise TypeError, σ)
    end.

(** [fuel] bounds the depth of the recursion. *)
Fixpoint deep_dict_update (fuel : nat) (main_dict update_dict : loc)
  : comp store unit :=
  fun σ =>
    match fuel with
    | O => None
    | S fuel' =>
        match σ !! update_dict with
        | Some (ODict uitems) =>
            let n0 := length uitems in
            for_items
              (update_item (deep_dict_update fuel') main_dict update_dict)
              update_dict n0 n0 σ
        | _ => Some (Raise AttributeError, σ)
        end
    end.

(** *** Dictionaries as values *)

(** The value held by a reference: what [json.dumps] would print. *)
Inductive tree : Type :=
  | TAtom (a : atom)
  | TList (elems : list tree)
  | TDict (items : list (string * tree)).

(** The merge on values: the items of the update are laid over the main
    dictionary one after the other. *)
Definition merge_value (merge : list (string * tree) -> tree -> list (string * tree))
    (old : option tree) (new : tree) : tree :=
  match old, new with
  | Some (TDict m), TDict _ => TDict (merge m new)
  | Some (TList a), TList b => TList (a ++ b)
  | _, _ => new
  end.

Fixpoint merge (main : list (string * tree)) (update : tree)
  : list (string * tree) :=
  match update with
  | TDict items =>
      (fix over (main : list (string * tree)) (items : list (string * tree)) :=
         match items with
         | [] => main
         | (k, t) :: rest =>
             over (dict_set k (merge_value merge (dict_get k main) t) main) rest
         end) main items
  | _ => main
  end.

(** The depth of nesting of dictionaries in dictionaries. *)
Fixpoint depth (t : tree) : nat :=
  match t with
  | TDict items =>
      S ((fix deepest (items : list (string * tree)) : nat :=
            match items with
            | [] => O
            | (_, t) :: rest => Nat.max (depth t) (deepest rest)
            end) items)
  | _ => O
  end.

(** [rep σ v t F]: in the store [σ] the value [v] holds the tree [t], and
    the dictionaries it is made of are the objects [F], none of them
    used twice.  A dictionary has each key once. *)
Inductive rep (σ : store) : val -> tree -> gset loc -> Prop :=
  | rep_atom a : rep σ (VAtom a) (TAtom a) ∅
  | rep_list l elems ts F :
      σ !! l = Some (OList elems) ->
      rep_elems σ elems ts F ->
      rep σ (VRef l) (TList ts) F
  | rep_dict l items kts F :
      σ !! l = Some (ODict items) ->
      NoDup items.*1 ->
      l ∉ F ->
      rep_items σ items kts F ->
      rep σ (VRef l) (TDict kts) ({[l]} ∪ F)
with rep_elems (σ : store) : list val -> list tree -> gset loc -> Prop :=
  | rep_elems_nil : rep_elems σ [] [] ∅
  | rep_elems_cons v t vs ts F1 F2 :
      rep σ v t F1 ->
      rep_elems σ vs ts F2 ->
      F1 ## F2 ->
      rep_elems σ (v :: vs) (t :: ts) (F1 ∪ F2)
with rep_items (σ : store)
  : list (string * val) -> list (string * tree) -> gset loc -> Prop :=
  | rep_items_nil : rep_items σ [] [] ∅
  | rep_items_cons k v t items kts F1 F2 :
      rep σ v t F1 ->
      rep_items σ items kts F2 ->
      F1 ## F2 ->
      rep_items σ ((k, v) :: items) ((k, t) :: kts) (F1 ∪ F2).

Scheme rep_mut := Minimality for rep Sort Prop
  with rep_elems_mut := Minimality for rep_elems Sort Prop
  with rep_items_mut := Minimality for rep_items Sort Prop.
Combined Scheme rep_mutind from rep_mut, rep_elems_mut, rep_items_mut.

(** From [σ] to [σ'] only objects of [X] have changed: every object of
    [σ] outside [X] is the same in [σ'], and a dictionary of [σ] is still
    a dictionary in [σ']. *)
Definition preserved (X : gset loc) (σ σ' : store) : Prop :=
  forall l o, σ !! l = Some o ->
    (l ∉ X -> σ' !! l = Some o)
    /\ (forall items, o = ODict items ->
          exists items', σ' !! l = Some (ODict items')).

(** *** Two stores for examples *)

(** [{"info": {"title": "a"}, "tags": ["x"], "version": 1}] at 1 and
    [{"info": {"summary": "b"}, "tags": ["y"], "servers": None}] at 2. *)
Definition schema_store : store :=
  list_to_map
    [ (1%nat, ODict [("info", VRef 3%nat); ("tags", VRef 5%nat); ("version", VAtom (AInt 1))]);
      (2%nat, ODict [("info", VRef 4%nat); ("tags", VRef 6%nat); ("servers", VAtom ANone)]);
      (3%nat, ODict [("title", VAtom (AStr "a"))]);
      (4%nat, ODict [("summary", VAtom (AStr "b"))]);
      (5%nat, OList [VAtom (AStr "x")]);
      (6%nat, OList [VAtom (AStr "y")]) ].

Definition schema_main : list (string * tree) :=
  [("info", TDict [("title", TAtom (AStr "a"))]);
   ("tags", TList [TAtom (AStr "x")]);
   ("version", TAtom (AInt 1))].

Definition schema_update : list (string * tree) :=
  [("info", TDict [("summary", TAtom (AStr "b"))]);
   ("tags", TList [TAtom (AStr "y")]);
   ("servers", TAtom ANone)].

(** [{}] at 1 and [{"a": 1}] at 2. *)
Definition small_store : store :=
  list_to_map [ (1%nat, ODict []); (2%nat, ODict [("a", VAtom (AInt 1))]) ].

End DictUpdate.

(** ** create_response_field and create_cloned_field *)

Module Fields.
Section Fields.

(** Python values that the code only hands on (defaults, validators,
    configuration classes, [FieldInfo] objects). *)
Context {PyVal : Type}.

(** Identities of field objects, of model classes and of dictionaries. *)
Definition loc : Type := nat.
Definition classid : Type := nat.

(** A type annotation, as far as the code tells types apart: a
    subclass of [BaseModel]; a dataclass, with its
    [__pydantic_model__] when it has one; anything else. *)
Inductive ty : Type :=
  | TyModel (c : classid)
  | TyDataclass (name : string) (pydantic_model : option classid)
  | TyOther (name : string).

(** The attributes of a [ModelField] that the code reads or writes. *)
Record ModelField : Type := {
  name : string;
  type_ : ty;
  has_alias : bool;
  alias : string;
  class_validators : PyVal;
  default : PyVal;
  required : PyVal;
  model_config : PyVal;
  field_info : PyVal;
  allow_none : bool;
  validate_always : bool;
  sub_fields : option (list loc);
  key_field : option loc;
  validators : PyVal;
  pre_validators : PyVal;
  post_validators : PyVal;
  parse_json : bool;
  shape : Z
}.

(** A model class: [__name__] and the dictionary [__fields__]. *)
Record ModelClass : Type := {
  cls_name : string;
  cls_fields : list (string * loc)
}.

(** The store: field objects, model classes, and the dictionaries used
    as [cloned_types]. *)
Record store : Type := {
  fields : gmap loc ModelField;
  classes : gmap classid ModelClass;
  dicts : gmap loc (gmap classid classid)
}.

(** The keyword arguments that [ModelField] receives: with Pydantic v1
    the six of [kw_v1] are added to the two others. *)
Record v1_kwargs : Type := {
  kw_type_ : ty;
  kw_class_validators : PyVal;
  kw_default : PyVal;
  kw_required : PyVal;
  kw_model_config : PyVal;
  kw_alias : option string
}.

Record kwargs : Type := {
  kw_name : string;
  kw_field_info : PyVal;
  kw_v1 : option v1_kwargs
}.

(** What comes from [fastapi._compat] and from Pydantic: the version
    switch, two constants, the empty dictionary, and the operations of
    the validation library, each a transformer of the store. *)
Variable PYDANTIC_V2 : bool.
Variables Undefined BaseConfig empty_dict : PyVal.
Variable FieldInfo : option ty -> option PyVal -> option string -> PyVal.
Variable ModelField_new : kwargs -> store -> result loc * store.
Variable create_model : string -> classid -> store -> result classid * store.
Variable populate_validators : loc -> store -> result unit * store.

(** The dictionary [kwargs] that [create_response_field] builds. *)
Definition response_field_kwargs (name : string) (type_ : ty)
    (class_validators : option PyVal) (default required model_config : PyVal)
    (field_info : option PyVal) (alias : option string) : kwargs :=
  let class_validators :=
    match class_validators with
    | Some cv => cv
    | None => empty_dict
    end in
  let field_info :=
    match field_info with
    | Some fi => fi
    | None =>
        if PYDANTIC_V2 then FieldInfo (Some type_) (Some default) alias
        else FieldInfo None None None
    end in
  {| kw_name := name; kw_field_info := field_info;
     kw_v1 :=
       if negb PYDANTIC_V2 then
         Some {| kw_type_ := type_;
                 kw_class_validators := class_validators;
                 kw_default := default; kw_required := required;
                 kw_model_config := model_config; kw_alias := alias |}
       else None |}.

Definition create_response_field (name : string) (type_ : ty)
    (class_validators : option PyVal) (default required model_config : PyVal)
    (field_info : option PyVal) (alias : option string) : comp store loc :=
  let kwargs :=
    response_field_kwargs name type_ class_validators default required
      model_config field_info alias in
  fun σ =>
    match ModelField_new kwargs σ with
    | (Ret new_field, σ') => Some (Ret new_field, σ')
    | (Raise e, σ') =>
        if is_RuntimeError e || is_PydanticSchemaGenerationError e
        then Some (Raise FastAPIError, σ')
        else Some (Raise e, σ')
    end.

(** Reading and writing objects of the store. *)
Definition get_field (l : loc) : comp store ModelField :=
  fun σ =>
    match fields σ !! l with
    | Some f => Some (Ret f, σ)
    | None => Some (Raise AttributeError, σ)
    end.

Definition set_field (l : loc) (f : ModelField) : comp store unit :=
  fun σ =>
    Some (Ret (), {| fields := <[l := f]> (fields σ);
                     classes := classes σ; dicts := dicts σ |}).

Definition get_class (c : classid) : comp store ModelClass :=
  fun σ =>
    match classes σ !! c with
    | Some cls => Some (Ret cls, σ)
    | None => Some (Raise AttributeError, σ)
    end.

Definition get_dict (d : loc) : comp store (gmap classid classid) :=
  fun σ =>
    match dicts σ !! d with
    | Some m => Some (Ret m, σ)
    | None => Some (Raise AttributeError, σ)
    end.

(** [{}]. *)
Definition new_dict : comp store loc :=
  fun σ =>
    let d := fresh (dom (dicts σ)) in
    Some (Ret d, {| fields := fields σ; classes := classes σ;
                    dicts := <[d := ∅]> (dicts σ) |}).

(** [cloned_types[original_type] = use_type]. *)
Definition dict_setitem (d : loc) (k v : classid) : comp store unit :=
  fun σ =>
    match dicts σ !! d with
    | Some m =>
        Some (Ret (), {| fields := fields σ; classes := classes σ;
                         dicts := <[d := <[k := v]> m]> (dicts σ) |})
    | None => Some (Raise TypeError, σ)
    end.

(** [use_type.__fields__[key] = l]. *)
Definition fields_setitem (c : classid) (key : string) (l : loc)
  : comp store unit :=
  fun σ =>
    match classes σ !! c with
    | Some cls =>
        Some (Ret (),
              {| fields := fields σ;
                 classes :=
                   <[c := {| cls_name := cls_name cls;
                             cls_fields :=
                               DictUpdate.dict_set key l (cls_fields cls) |}]>
                     (classes σ);
                 dicts := dicts σ |})
    | None => Some (Raise AttributeError, σ)
    end.

(** The assignments from [new_field.has_alias = field.has_alias] to
    [new_field.validate_always = field.validate_always]. *)
Definition copy_first (field new_field : ModelField) : ModelField :=
  {| name := name new_field; type_ := type_ new_field;
     has_alias := has_alias field; alias := alias field;
     class_validators := class_validators field;
     default := default field; required := required field;
     model_config := model_config field; field_info := field_info field;
     allow_none := allow_none field;
     validate_always := validate_always field;
     sub_fields := sub_fields new_field; key_field := key_field new_field;
     validators := validators new_field;
     pre_validators := pre_validators new_field;
     post_validators := post_validators new_field;
     parse_json := parse_json new_field; shape := shape new_field |}.

Definition with_sub_fields (subs : list loc) (new_field : ModelField)
  : ModelField :=
  {| name := name new_field; type_ := type_ new_field;
     has_alias := has_alias new_field; alias := alias new_field;
     class_validators := class_validators new_field;
     default := default new_field; required := required new_field;
     model_config := model_config new_field;
     field_info := field_info new_field;
     allow_none := allow_none new_field;
     validate_always := validate_always new_field;
     sub_fields := Some subs; key_field := key_field new_field;
     validators := validators new_field;
     pre_validators := pre_validators new_field;
     post_validators := post_validators new_field;
     parse_json := parse_json new_field; shape := shape new_field |}.

Definition with_key_field (key : loc) (new_field : ModelField)
  : ModelField :=
  {| name := name new_field; type_ := type_ new_field;
     has_alias := has_alias new_field; alias := alias new_field;
     class_validators := class_validators new_field;
     default := default new_field; required := required new_field;
     model_config := model_config new_field;
     field_info := field_info new_field;
     allow_none := allow_none new_field;
     validate_always := validate_always new_field;
     sub_fields := sub_fields new_field; key_field := Some key;
     validators := validators new_field;
     pre_validators := pre_validators new_field;
     post_validators := post_validators new_field;
     parse_json := parse_json new_field; shape := shape new_field |}.

(** The assignments from [new_field.validators = field.validators] to
    [new_field.shape = field.shape]. *)
Definition copy_last (field new_field : ModelField) : ModelField :=
  {| name := name new_field; type_ := type_ new_field;
     has_alias := has_alias new_field; alias := alias new_field;
     class_validators := class_validators new_field;
     default := default new_field; required := required new_field;
     model_config := model_config new_field;
     field_info := field_info new_field;
     allow_none := allow_none new_field;
     validate_always := validate_always new_field;
     sub_fields := sub_fields new_field; key_field := key_field new_field;
     validators := validators field;
     pre_validators := pre_validators field;
     post_validators := post_validators field;
     parse_json := parse_json field; shape := shape field |}.

(** [new_field.x = field.x; ...]: both objects are read when the block
    runs. *)
Definition assign (copy : ModelField -> ModelField -> ModelField)
    (field new_field : loc) : comp store unit :=
  f ← get_field field;
  nf ← get_field new_field;
  set_field new_field (copy f nf).

Definition update (change : ModelField -> ModelField) (new_field : loc)
  : comp store unit :=
  nf ← get_field new_field;
  set_field new_field (change nf).

(** [is_dataclass(t) and hasattr(t, "__pydantic_model__")] replaces the
    dataclass by its model. *)
Definition pydantic_model_of (original_type : ty) : ty :=
  match original_type with
  | TyDataclass _ (Some c) => TyModel c
  | t => t
  end.

(** The block under [if lenient_issubclass(original_type, BaseModel)],
    for the model class [c]; [self] is the function itself, for the
    recursive calls.  The loop runs over the values that
    [original_type.__fields__] has when it starts. *)
Definition clone_model_type (self : loc -> option loc -> comp store loc)
    (cloned_types : loc) (c : classid) : comp store ty :=
  memo ← get_dict cloned_types;
  match memo !! c with
  | Some c' => mret (TyModel c')
  | None =>
      cls ← get_class c;
      c' ← call (create_model (cls_name cls) c);
      _ ← dict_setitem cloned_types c c';
      _ ← for_each
            (fun f =>
               cloned ← self f (Some cloned_types);
               fr ← get_field f;
               fields_setitem c' (name fr) cloned)
            (cls_fields cls).*2;
      mret (TyModel c')
  end.

(** [if field.sub_fields: new_field.sub_fields = [...]]. *)
Definition clone_sub_fields (self : loc -> option loc -> comp store loc)
    (cloned_types field new_field : loc) : comp store unit :=
  f ← get_field field;
  match sub_fields f with
  | Some (sub :: subs) =>
      cloned ← comprehension
                 (fun sub_field => self sub_field (Some cloned_types))
                 (sub :: subs);
      update (with_sub_fields cloned) new_field
  | _ => mret ()
  end.

(** [if field.key_field: new_field.key_field = ...]. *)
Definition clone_key_field (self : loc -> option loc -> comp store loc)
    (cloned_types field new_field : loc) : comp store unit :=
  f ← get_field field;
  match key_field f with
  | Some key =>
      cloned ← self key (Some cloned_types);
      update (with_key_field cloned) new_field
  | None => mret ()
  end.

(** The body of [create_cloned_field] after the version switch. *)
Definition clone_field (self : loc -> option loc -> comp store loc)
    (field : loc) (cloned_types : option loc) : comp store loc :=
  cloned_types ←
    match cloned_types with
    | None => new_dict
    | Some d => mret d
    end;
  f ← get_field field;
  let original_type := pydantic_model_of (type_ f) in
  use_type ←
    match original_type with
    | TyModel c => clone_model_type self cloned_types c
    | t => mret t
    end;
  f ← get_field field;
  new_field ← create_response_field (name f) use_type
                None Undefined Undefined BaseConfig None None;
  _ ← assign copy_first field new_field;
  _ ← clone_sub_fields self cloned_types field new_field;
  _ ← clone_key_field self cloned_types field new_field;
  _ ← assign copy_last field new_field;
  _ ← call (populate_validators new_field);
  mret new_field.

(** [fuel] bounds the depth of the recursion. *)
Fixpoint create_cloned_field (fuel : nat) (field : loc)
    (cloned_types : option loc) : comp store loc :=
  match fuel with
  | O => fun _ => None
  | S fuel' =>
      if PYDANTIC_V2 then mret field
      else clone_field (create_cloned_field fuel') field cloned_types
  end.

(** *** What is assumed of the validation library *)

(** The attributes that [populate_validators] leaves alone. *)
Definition same_declaration (f f' : ModelField) : Prop :=
  name f' = name f /\ type_ f' = type_ f
  /\ has_alias f' = has_alias f /\ alias f' = alias f
  /\ class_validators f' = class_validators f
  /\ default f' = default f /\ required f' = required f
  /\ model_config f' = model_config f /\ field_info f' = field_info f
  /\ allow_none f' = allow_none f
  /\ sub_fields f' = sub_fields f /\ key_field f' = key_field f
  /\ parse_json f' = parse_json f /\ shape f' = shape f.

(** Nothing that exists is changed by a constructor. *)
Definition extends (σ σ' : store) : Prop :=
  fields σ ⊆ fields σ' /\ classes σ ⊆ classes σ' /\ dicts σ' = dicts σ.

(** [ModelField(...)] makes a new object with the name and, under
    Pydantic v1, the type it is given; [create_model] makes a new class
    with the name it is given; [populate_validators] writes the
    validator attributes of its field and nothing else. *)
Record library_ok : Prop := {
  new_extends kw σ r σ' :
    ModelField_new kw σ = (r, σ') -> extends σ σ';
  new_fresh kw σ l σ' :
    ModelField_new kw σ = (Ret l, σ') ->
    fields σ !! l = None
    /\ exists f, fields σ' !! l = Some f /\ name f = kw_name kw
                 /\ forall v, kw_v1 kw = Some v -> type_ f = kw_type_ v;
  model_extends n b σ r σ' :
    create_model n b σ = (r, σ') -> extends σ σ';
  model_fresh n b σ c σ' :
    create_model n b σ = (Ret c, σ') ->
    classes σ !! c = None
    /\ exists cls, classes σ' !! c = Some cls /\ cls_name cls = n;
  populate_only l σ r σ' :
    populate_validators l σ = (r, σ') ->
    classes σ' = classes σ /\ dicts σ' = dicts σ
    /\ (forall l', l' ≠ l -> fields σ' !! l' = fields σ !! l')
    /\ (forall f, fields σ !! l = Some f ->
          exists f', fields σ' !! l = Some f' /\ same_declaration f f')
}.

(** The library raises no exception. *)
Definition library_total : Prop :=
  (forall kw σ, exists l σ', ModelField_new kw σ = (Ret l, σ'))
  /\ (forall n b σ, exists c σ', create_model n b σ = (Ret c, σ'))
  /\ (forall l σ, exists σ', populate_validators l σ = (Ret (), σ')).

(** *** Declarations and their clones *)

(** A store of declarations is closed when its fields and classes refer
    to fields and classes of the store, and its classes keep each field
    under its name, each name once. *)
Record closed (σ0 : store) : Prop := {
  closed_type l f c :
    fields σ0 !! l = Some f -> pydantic_model_of (type_ f) = TyModel c ->
    is_Some (classes σ0 !! c);
  closed_sub_fields l f subs l' :
    fields σ0 !! l = Some f -> sub_fields f = Some subs -> l' ∈ subs ->
    is_Some (fields σ0 !! l');
  closed_key_field l f k :
    fields σ0 !! l = Some f -> key_field f = Some k ->
    is_Some (fields σ0 !! k);
  closed_class_fields c cls key l :
    classes σ0 !! c = Some cls -> (key, l) ∈ cls_fields cls ->
    exists f, fields σ0 !! l = Some f /\ name f = key;
  closed_class_names c cls :
    classes σ0 !! c = Some cls -> NoDup (cls_fields cls).*1
}.

(** The sub-fields and the key field of a field are of lower rank: the
    fields are not nested in themselves. *)
Record ranked (rank : loc -> nat) (bound : nat) (σ0 : store) : Prop := {
  ranked_bound l f : fields σ0 !! l = Some f -> (rank l <= bound)%nat;
  ranked_sub_fields l f subs l' :
    fields σ0 !! l = Some f -> sub_fields f = Some subs -> l' ∈ subs ->
    (rank l' < rank l)%nat;
  ranked_key_field l f k :
    fields σ0 !! l = Some f -> key_field f = Some k -> (rank k < rank l)%nat
}.

(** The attributes that the clone takes from the original. *)
Definition copied (f f' : ModelField) : Prop :=
  name f' = name f
  /\ has_alias f' = has_alias f /\ alias f' = alias f
  /\ class_validators f' = class_validators f
  /\ default f' = default f /\ required f' = required f
  /\ model_config f' = model_config f /\ field_info f' = field_info f
  /\ allow_none f' = allow_none f
  /\ parse_json f' = parse_json f /\ shape f' = shape f.

(** The type of the clone: the clone of the model class, for a model (or
    a dataclass with a model); the type itself otherwise. *)
Definition type_clone (memo : gmap classid classid) (t t' : ty) : Prop :=
  match pydantic_model_of t with
  | TyModel c => exists c', memo !! c = Some c' /\ t' = TyModel c'
  | t0 => t' = t0
  end.

(** [clone_of σ0 σ memo a b F]: the field [b] of [σ] is a clone of the
    declaration [a] of [σ0]: it has the copied attributes of [a], the
    clone of its type, and clones of its sub-fields and of its key
    field, where [a] has some.  [F] holds the clones involved. *)
Inductive clone_of (σ0 σ : store) (memo : gmap classid classid)
  : loc -> loc -> gset loc -> Prop :=
  | clone_of_field a b f f' Fs Fk :
      fields σ0 !! a = Some f ->
      fields σ !! b = Some f' ->
      copied f f' ->
      type_clone memo (type_ f) (type_ f') ->
      sub_clones σ0 σ memo (sub_fields f) (sub_fields f') Fs ->
      key_clone σ0 σ memo (key_field f) (key_field f') Fk ->
      clone_of σ0 σ memo a b ({[b]} ∪ Fs ∪ Fk)
with sub_clones (σ0 σ : store) (memo : gmap classid classid)
  : option (list loc) -> option (list loc) -> gset loc -> Prop :=
  | sub_clones_none new : sub_clones σ0 σ memo None new ∅
  | sub_clones_empty new : sub_clones σ0 σ memo (Some []) new ∅
  | sub_clones_some sub subs cloned F :
      clones_of σ0 σ memo (sub :: subs) cloned F ->
      sub_clones σ0 σ memo (Some (sub :: subs)) (Some cloned) F
with clones_of (σ0 σ : store) (memo : gmap classid classid)
  : list loc -> list loc -> gset loc -> Prop :=
  | clones_of_nil : clones_of σ0 σ memo [] [] ∅
  | clones_of_cons a b F1 rest cloned F2 :
      clone_of σ0 σ memo a b F1 ->
      clones_of σ0 σ memo rest cloned F2 ->
      clones_of σ0 σ memo (a :: rest) (b :: cloned) (F1 ∪ F2)
with key_clone (σ0 σ : store) (memo : gmap classid classid)
  : option loc -> option loc -> gset loc -> Prop :=
  | key_clone_none new : key_clone σ0 σ memo None new ∅
  | key_clone_some k k' F :
      clone_of σ0 σ memo k k' F ->
      key_clone σ0 σ memo (Some k) (Some k') F.

Scheme clone_of_mut := Minimality for clone_of Sort Prop
  with sub_clones_mut := Minimality for sub_clones Sort Prop
  with clones_of_mut := Minimality for clones_of Sort Prop
  with key_clone_mut := Minimality for key_clone Sort Prop.
Combined Scheme clone_mutind
  from clone_of_mut, sub_clones_mut, clones_of_mut, key_clone_mut.

(** [class_clone σ0 σ memo c F]: the class that [memo] gives for the
    model class [c] of [σ0] is a new class of [σ] with the name of [c]
    and, under the name of each field of [c], a clone of the field. *)
Definition class_clone (σ0 σ : store) (memo : gmap classid classid)
    (c : classid) (F : gset loc) : Prop :=
  exists cls c' cls',
    classes σ0 !! c = Some cls /\ memo !! c = Some c'
    /\ classes σ0 !! c' = None /\ classes σ !! c' = Some cls'
    /\ cls_name cls' = cls_name cls
    /\ forall key l, (key, l) ∈ cls_fields cls ->
         exists l' Fl, DictUpdate.dict_get key (cls_fields cls') = Some l'
                       /\ clone_of σ0 σ memo l l' Fl /\ Fl ⊆ F.

(** *** The state of a cloning in progress *)

(** The classes whose clones are complete, each with the clones of its
    fields. *)
Definition completed (σ0 σ : store) (memo : gmap classid classid)
    (done : gmap classid (gset loc)) : Prop :=
  forall c F, done !! c = Some F ->
    class_clone σ0 σ memo c F /\ F ⊆ dom (fields σ).

(** The memo gives classes of the store, a different one for each
    class. *)
Definition memo_ok (σ : store) (memo : gmap classid classid) : Prop :=
  forall c c', memo !! c = Some c' ->
    is_Some (classes σ !! c') /\ forall c2, memo !! c2 = Some c' -> c2 = c.

(** The store [σ] holds the declarations [σ0], the dictionary [d] is the
    memo, and the classes of [done] are complete. *)
Record cloning (σ0 : store) (d : loc) (σ : store)
    (memo : gmap classid classid) (done : gmap classid (gset loc)) : Prop := {
  cloning_fields : fields σ0 ⊆ fields σ;
  cloning_classes : classes σ0 ⊆ classes σ;
  cloning_dict : dicts σ !! d = Some memo;
  cloning_done : completed σ0 σ memo done;
  cloning_done_dom : dom done ⊆ dom memo;
  cloning_memo : memo_ok σ memo
}.

(** From one state of the cloning to a later one: what exists stays as
    it is, but for the fields [Y] and the classes [X] that are being
    written; the classes added to the memo are complete, and their
    clones are new. *)
Record grows (Y : gset loc) (X : gset classid)
    (σ : store) (memo : gmap classid classid)
    (done : gmap classid (gset loc)) (σ' : store)
    (memo' : gmap classid classid) (done' : gmap classid (gset loc)) : Prop := {
  grows_fields x g :
    x ∉ Y -> fields σ !! x = Some g -> fields σ' !! x = Some g;
  grows_fields_dom : dom (fields σ) ⊆ dom (fields σ');
  grows_classes x cls :
    x ∉ X -> classes σ !! x = Some cls -> classes σ' !! x = Some cls;
  grows_classes_dom : dom (classes σ) ⊆ dom (classes σ');
  grows_memo : memo ⊆ memo';
  grows_done : done ⊆ done';
  grows_done_dom : dom done' = dom done ∪ (dom memo' ∖ dom memo);
  grows_new c F :
    done' !! c = Some F -> done !! c = None -> F ## dom (fields σ)
}.

(** A computation runs to its end from [σ]: it returns a value and a
    store for which [Q] holds, or it raises an exception, which then
    comes from the library. *)
Definition runs {A : Type} (m : comp store A) (σ : store)
    (Q : A -> store -> Prop) : Prop :=
  exists r σ',
    m σ = Some (r, σ')
    /\ match r with
       | Ret a => Q a σ'
       | Raise _ => ~ library_total
       end.

(** The field [l'] is a clone of the declaration [l], made of new
    objects; nothing else has changed. *)
Definition cloned (σ0 : store) (d : loc) (σ : store)
    (memo : gmap classid classid) (done : gmap classid (gset loc))
    (l l' : loc) (σ' : store) : Prop :=
  exists memo' done' F,
    cloning σ0 d σ' memo' done' /\ grows ∅ ∅ σ memo done σ' memo' done'
    /\ F ## dom (fields σ) /\ F ⊆ dom (fields σ')
    /\ clone_of σ0 σ' memo' l l' F.

(** The clone [c'] of the class [c] while its fields are cloned: the
    fields [seen] have their clones in it. *)
Definition partial (σ0 : store) (c c' : classid)
    (seen : list (string * loc)) (σ : store)
    (memo : gmap classid classid) (Fc : gset loc) : Prop :=
  exists cls cls',
    classes σ0 !! c = Some cls /\ classes σ !! c' = Some cls'
    /\ cls_name cls' = cls_name cls /\ Fc ⊆ dom (fields σ)
    /\ forall key l, (key, l) ∈ seen ->
         exists l' Fl, DictUpdate.dict_get key (cls_fields cls') = Some l'
                       /\ clone_of σ0 σ memo l l' Fl /\ Fl ⊆ Fc.

(** The new field [nf], with the attributes [h], while it is built: no
    complete class holds it. *)
Definition building (σ0 : store) (d : loc) (nf : loc) (h : ModelField)
    (σ : store) (memo : gmap classid classid)
    (done : gmap classid (gset loc)) : Prop :=
  cloning σ0 d σ memo done /\ fields σ0 !! nf = None
  /\ fields σ !! nf = Some h
  /\ forall c F, done !! c = Some F -> nf ∉ F.

(** The depth of recursion that is enough for a field of rank [r] when
    [n] model classes are not in the memo yet, the ranks being at most
    [bound]. *)
Definition budget (bound n r : nat) : nat := (n * S bound + r + 1)%nat.

Definition unseen (σ0 : store) (memo : gmap classid classid) : nat :=
  size (dom (classes σ0) ∖ dom memo).

End Fields.
End Fields.

(** ** Example declarations *)

(** A small validation library in the style of Pydantic v1, and the
    declarations of a model that refers to itself; they serve as
    concrete inputs. *)
Module ExampleModels.
Import Fields.

(** Values are shown as strings. *)
Definition PyVal : Type := string.
Definition Undefined : PyVal := "Undefined".
Definition BaseConfig : PyVal := "BaseConfig".
Definition empty_dict : PyVal := "{}".
Definition FieldInfo (annotation : option ty) (default : option PyVal)
    (alias : option string) : PyVal := "FieldInfo()".

(** The field that the constructor makes of its arguments. *)
Definition constructed (kw : @kwargs PyVal) : @ModelField PyVal :=
  {| name := kw_name kw;
     type_ := match kw_v1 kw with
              | Some v => kw_type_ v
              | None => TyOther "Any"
              end;
     has_alias := false; alias := kw_name kw;
     class_validators := match kw_v1 kw with
                         | Some v => kw_class_validators v
                         | None => empty_dict
                         end;
     default := Undefined; required := Undefined;
     model_config := BaseConfig; field_info := kw_field_info kw;
     allow_none := false; validate_always := false;
     sub_fields := None; key_field := None;
     validators := "[]"; pre_validators := "None";
     post_validators := "None"; parse_json := false; shape := 1 |}.

(** The constructor [ModelField]: finds no validator for the class
    [Response], which is a [RuntimeError]; rejects a field of type
    [Awaitable] with a [TypeError]; makes a new field object of every
    other type. *)
Definition ModelField_new (kw : @kwargs PyVal) (σ : @store PyVal)
  : result loc * @store PyVal :=
  match type_ (constructed kw) with
  | TyOther n =>
      if String.eqb n "Response" then (Raise RuntimeError, σ)
      else if String.eqb n "Awaitable" then (Raise TypeError, σ)
      else
        let l := fresh (dom (fields σ)) in
        (Ret l, {| fields := <[l := constructed kw]> (fields σ);
                   classes := classes σ; dicts := dicts σ |})
  | _ =>
      let l := fresh (dom (fields σ)) in
      (Ret l, {| fields := <[l := constructed kw]> (fields σ);
                 classes := classes σ; dicts := dicts σ |})
  end.

(** [create_model(name, __base__=base)]: a new class that starts with
    the fields of its base. *)
Definition create_model (n : string) (base : classid) (σ : @store PyVal)
  : result classid * @store PyVal :=
  let c := fresh (dom (classes σ)) in
  let inherited :=
    match classes σ !! base with
    | Some cls => cls_fields cls
    | None => []
    end in
  (Ret c, {| fields := fields σ;
             classes := <[c := {| cls_name := n; cls_fields := inherited |}]>
                          (classes σ);
             dicts := dicts σ |}).

(** [field.populate_validators()]: sets the validators of the field. *)
Definition populate_validators (l : loc) (σ : @store PyVal)
  : result unit * @store PyVal :=
  match fields σ !! l with
  | Some f =>
      (Ret (),
       {| fields :=
            <[l := {| name := name f; type_ := type_ f;
                      has_alias := has_alias f; alias := alias f;
                      class_validators := class_validators f;
                      default := default f; required := required f;
                      model_config := model_config f;
                      field_info := field_info f;
                      allow_none := allow_none f;
                      validate_always := validate_always f;
                      sub_fields := sub_fields f; key_field := key_field f;
                      validators := "[validate]";
                      pre_validators := pre_validators f;
                      post_validators := post_validators f;
                      parse_json := parse_json f; shape := shape f |}]>
              (fields σ);
          classes := classes σ; dicts := dicts σ |})
  | None => (Ret (), σ)
  end.

(** A declared field. *)
Definition declared (n : string) (t : ty) (optional : bool) (sh : Z)
    (subs : option (list loc)) (key : option loc) : @ModelField PyVal :=
  {| name := n; type_ := t; has_alias := false; alias := n;
     class_validators := empty_dict; default := "None";
     required := if optional then "False" else "True";
     model_config := "Config"; field_info := "FieldInfo(description)";
     allow_none := optional; validate_always := false;
     sub_fields := subs; key_field := key;
     validators := "[validate]"; pre_validators := "None";
     post_validators := "None"; parse_json := false; shape := sh |}.

(** [class Node(BaseModel)] with [value: int], [next: Optional[Node]],
    [children: List[Node]] and [tags: Dict[str, int]], and a response
    field [item] of type [Node]. *)
Definition Node : classid := 10%nat.
Definition item : loc := 1%nat.

Definition node_store : @store PyVal :=
  {| fields :=
       list_to_map
         [(1%nat, declared "item" (TyModel Node) false 1 None None);
          (2%nat, declared "value" (TyOther "int") false 1 None None);
          (3%nat, declared "next" (TyModel Node) true 1 None None);
          (4%nat, declared "children" (TyModel Node) false 2
                    (Some [5%nat]) None);
          (5%nat, declared "_children" (TyModel Node) false 1 None None);
          (6%nat, declared "tags" (TyOther "int") false 4 None (Some 7%nat));
          (7%nat, declared "key_tags" (TyOther "str") false 1 None None)];
     classes :=
       {[Node := {| cls_name := "Node";
                    cls_fields := [("value", 2%nat); ("next", 3%nat);
                                   ("children", 4%nat); ("tags", 6%nat)] |}]};
     dicts := ∅ |}.

(** The fields with sub-fields or a key field are of rank 1. *)
Definition node_rank (l : loc) : nat :=
  if decide (l = 4%nat) then 1%nat
  else if decide (l = 6%nat) then 1%nat else 0%nat.

End ExampleModels.

(** * Properties *)

(** ** The status-code predicate *)

Section StatusCodeProperties.
Import StatusCode.

Lemma int_code_allowed (n : Z) :
  is_body_allowed_for_status_code (SCInt n)
  = Ret (negb ((n <? 200) || (n =? 204) || (n =? 304))).
Proof. reflexivity. Qed.

Lemma str_not_patterned (s : string) :
  s ∉ patterned -> in_patterned (SCStr s) = false.
Proof.
  intros Hs. unfold in_patterned.
  destruct (existsb (String.eqb s) patterned) eqn:E; [|done].
  apply existsb_exists in E as (t & Ht & Heq).
  apply String.eqb_eq in Heq as ->. apply list_elem_of_In in Ht. done.
Qed.

End StatusCodeProperties.

(** C1. The predicate follows the case table: [None] and the six
    patterned tokens allow a body; 204 and 304 do not; every other
    integer code from 200 to 599 does; every integer code below 200 does
    not. *)
Theorem is_body_allowed_case_table :
  StatusCode.is_body_allowed_for_status_code StatusCode.SCNone = Ret true
  /\ (forall s, s ∈ ["default"; "1XX"; "2XX"; "3XX"; "4XX"; "5XX"] ->
        StatusCode.is_body_allowed_for_status_code (StatusCode.SCStr s) = Ret true)
  /\ StatusCode.is_body_allowed_for_status_code (StatusCode.SCInt 204) = Ret false
  /\ StatusCode.is_body_allowed_for_status_code (StatusCode.SCInt 304) = Ret false
  /\ (forall n : Z, 200 <= n <= 599 -> n <> 204 -> n <> 304 ->
        StatusCode.is_body_allowed_for_status_code (StatusCode.SCInt n) = Ret true)
  /\ (forall n : Z, n < 200 ->
        StatusCode.is_body_allowed_for_status_code (StatusCode.SCInt n) = Ret false).
Proof.
  repeat split.
  - intros s Hs. repeat (apply elem_of_cons in Hs as [-> | Hs]; [reflexivity|]).
    by apply elem_of_nil in Hs.
  - intros n Hrange H204 H304. rewrite int_code_allowed. do 2 f_equal.
    apply negb_true_iff. rewrite !orb_false_iff. lia.
  - intros n Hlow. rewrite int_code_allowed.
    replace (n <? 200) with true by lia. reflexivity.
Qed.

Lemma is_body_allowed_case_table_witness :
  StatusCode.is_body_allowed_for_status_code (StatusCode.SCStr "2XX") = Ret true
  /\ StatusCode.is_body_allowed_for_status_code (StatusCode.SCInt 404) = Ret true
  /\ StatusCode.is_body_allowed_for_status_code (StatusCode.SCInt 101) = Ret false.
Proof.
  destruct is_body_allowed_case_table as (_ & Htok & _ & _ & Hok & Hlow).
  split; [|split].
  - apply Htok. set_solver.
  - apply Hok; lia.
  - apply Hlow; lia.
Defined.

(** C8, as stated, fails: the redirect code 301 lies in 300-399 and the
    predicate allows a body for it. *)
Lemma redirect_301_allows_body :
  300 <= 301 <= 399
  /\ StatusCode.is_body_allowed_for_status_code (StatusCode.SCInt 301) = Ret true
  /\ StatusCode.is_body_allowed_for_status_code (StatusCode.SCInt 301) <> Ret false.
Proof. split; [lia|]. split; [reflexivity|discriminate]. Qed.

(** C8, amended. The codes without a body are the ones below 200 (the
    informational range 100-199 among them) and the literal codes 204
    and 304; among the redirect codes 300-399 only 304 is one of them,
    all the others allow a body. *)
Theorem is_body_allowed_no_body_codes :
  (forall n : Z, 100 <= n <= 199 ->
     StatusCode.is_body_allowed_for_status_code (StatusCode.SCInt n) = Ret false)
  /\ StatusCode.is_body_allowed_for_status_code (StatusCode.SCInt 204) = Ret false
  /\ StatusCode.is_body_allowed_for_status_code (StatusCode.SCInt 304) = Ret false
  /\ (forall n : Z, 300 <= n <= 399 -> n <> 304 ->
        StatusCode.is_body_allowed_for_status_code (StatusCode.SCInt n) = Ret true)
  /\ (forall n : Z,
        StatusCode.is_body_allowed_for_status_code (StatusCode.SCInt n) = Ret false
        <-> n < 200 \/ n = 204 \/ n = 304).
Proof.
  repeat split.
  - intros n Hn. rewrite int_code_allowed.
    replace (n <? 200) with true by lia. reflexivity.
  - intros n Hn H304. rewrite int_code_allowed. do 2 f_equal.
    apply negb_true_iff. rewrite !orb_false_iff. lia.
  - rewrite int_code_allowed. intros [= H%negb_false_iff].
    rewrite !orb_true_iff in H. lia.
  - intros H. rewrite int_code_allowed. do 2 f_equal.
    apply negb_false_iff. rewrite !orb_true_iff. lia.
Qed.

Lemma is_body_allowed_no_body_codes_witness :
  StatusCode.is_body_allowed_for_status_code (StatusCode.SCInt 100) = Ret false
  /\ StatusCode.is_body_allowed_for_status_code (StatusCode.SCInt 302) = Ret true.
Proof.
  destruct is_body_allowed_no_body_codes as (Hinfo & _ & _ & Hredir & _).
  split; [apply Hinfo; lia | apply Hredir; lia].
Defined.



(** ** Default resolution *)

Section DefaultsProperties.
Import Defaults.
Context {DefaultType : Type}.
Implicit Types (i : item DefaultType) (items : list (item DefaultType)).

Lemma first_concrete_app pre x post otherwise :
  Forall (fun i => is_placeholder i = true) pre ->
  is_placeholder x = false ->
  first_concrete (pre ++ x :: post)%list otherwise = x.
Proof.
  induction 1 as [|p pre Hp _ IH]; intros Hx; simpl.
  - by rewrite Hx.
  - rewrite Hp. simpl. by apply IH.
Qed.

Lemma first_concrete_all_placeholders items otherwise :
  Forall (fun i => is_placeholder i = true) items ->
  first_concrete items otherwise = otherwise.
Proof.
  induction 1 as [|p items Hp _ IH]; simpl; [done|]. by rewrite Hp.
Qed.

End DefaultsProperties.

(** C4. Over the non-empty sequence [first_item :: extra_items]: when
    some item is not a placeholder, the result is the first such item;
    when all are placeholders, it is the first item. *)
Theorem get_value_or_default_resolution {DefaultType : Type}
    (first_item : Defaults.item DefaultType)
    (extra_items : list (Defaults.item DefaultType)) :
  (forall pre x post,
     first_item :: extra_items = (pre ++ x :: post)%list ->
     Forall (fun i => Defaults.is_placeholder i = true) pre ->
     Defaults.is_placeholder x = false ->
     Defaults.get_value_or_default first_item extra_items = x)
  /\ (Forall (fun i => Defaults.is_placeholder i = true)
             (first_item :: extra_items) ->
      Defaults.get_value_or_default first_item extra_items = first_item).
Proof.
  unfold Defaults.get_value_or_default. split.
  - intros pre x post -> Hpre Hx. by apply first_concrete_app.
  - intros Hall. by apply first_concrete_all_placeholders.
Qed.

Lemma get_value_or_default_resolution_witness :
  Defaults.get_value_or_default
    (Defaults.Placeholder 1) [Defaults.Concrete 2; Defaults.Placeholder 3]
  = Defaults.Concrete 2
  /\ Defaults.get_value_or_default
       (Defaults.Placeholder 1) [Defaults.Placeholder 2]
     = Defaults.Placeholder 1.
Proof.
  split.
  - apply (proj1 (get_value_or_default_resolution _ _)
             [Defaults.Placeholder 1] (Defaults.Concrete 2)
             [Defaults.Placeholder 3]).
    + reflexivity.
    + repeat constructor.
    + reflexivity.
  - apply (proj2 (get_value_or_default_resolution _ _)).
    repeat constructor.
Defined.

(** ** Path parameter names *)

Section PathParamsProperties.
Import PathParams.

Lemma findall_cons c rest :
  findall (c :: rest)
  = match match_here (c :: rest) with
    | Some (group, after) => group :: findall after
    | None => findall rest
    end.
Proof.
  rewrite findall_equation_2. unfold Logic.inspect.
  enough (forall o (Hm : match_here (c :: rest) = o),
            findall_unfold_clause_2 c rest (exist _ o Hm)
            = match o with
              | Some (group, after) => group :: findall after
              | None => findall rest
              end) as Hgen by apply Hgen.
  intros [[group after]|] Hm; reflexivity.
Qed.

Lemma findall_skip c rest :
  c <> "{"%char -> findall (c :: rest) = findall rest.
Proof.
  intros Hc. rewrite findall_cons.
  destruct c as [[] [] [] [] [] [] [] []]; try reflexivity. done.
Qed.

Lemma findall_literal (text rest : list ascii) :
  "{"%char ∉ text -> findall (text ++ rest) = findall rest.
Proof.
  induction text as [|c text IH]; intros Hno; simpl; [done|].
  rewrite findall_skip by set_solver. apply IH. set_solver.
Qed.

Lemma lazy_group_name (name rest : list ascii) :
  "}"%char ∉ name -> newline ∉ name ->
  lazy_group (name ++ "}"%char :: rest) = Some (name, rest).
Proof.
  induction name as [|c name IH]; intros Hclose Hnl; simpl; [done|].
  destruct (Ascii.eqb_spec c "}") as [->|_]; [set_solver|].
  destruct (Ascii.eqb_spec c newline) as [->|_]; [set_solver|].
  rewrite IH by set_solver. reflexivity.
Qed.

Lemma findall_param (name rest : list ascii) :
  "}"%char ∉ name -> newline ∉ name ->
  findall ("{"%char :: name ++ "}"%char :: rest) = name :: findall rest.
Proof.
  intros Hclose Hnl. rewrite findall_cons. simpl.
  by rewrite lazy_group_name.
Qed.

Lemma list_ascii_of_string_app (s t : string) :
  list_ascii_of_string (s ++ t)
  = (list_ascii_of_string s ++ list_ascii_of_string t)%list.
Proof. induction s as [|c s IH]; simpl; [done|]. by rewrite IH. Qed.

Lemma string_of_list_ascii_app (a b : list ascii) :
  string_of_list_ascii (a ++ b)
  = string_of_list_ascii a ++ string_of_list_ascii b.
Proof. induction a as [|c a IH]; simpl; [done|]. by rewrite IH. Qed.

Lemma findall_render (template : list segment) :
  Forall well_formed_segment template ->
  string_of_list_ascii <$> findall (list_ascii_of_string (render template))
  = declared_names template.
Proof.
  induction 1 as [|seg template Hseg _ IH]; simpl.
  - by rewrite findall_equation_1.
  - rewrite list_ascii_of_string_app. destruct seg as [text|name]; simpl.
    + by rewrite findall_literal.
    + destruct Hseg as [Hclose Hnl].
      rewrite !list_ascii_of_string_app, <- !app_assoc. simpl.
      rewrite findall_param by done.
      by rewrite fmap_cons, string_of_list_ascii_of_string, IH.
Qed.

(** Whatever the string, a name that is returned stands between braces
    in it, and has neither a closing brace nor a newline. *)
Lemma lazy_group_sound l group after :
  lazy_group l = Some (group, after) ->
  l = (group ++ "}"%char :: after)%list
  /\ ("}"%char ∉ group) /\ (newline ∉ group).
Proof.
  revert group after. induction l as [|c l IH]; intros group after; simpl.
  - discriminate.
  - destruct (Ascii.eqb_spec c "}") as [->|Hc].
    + intros [= <- <-]. set_solver.
    + destruct (Ascii.eqb_spec c newline) as [->|Hn]; [discriminate|].
      destruct (lazy_group l) as [[g a]|]; simpl; [|discriminate].
      intros [= <- <-]. destruct (IH g a eq_refl) as (-> & ? & ?).
      set_solver.
Qed.

Lemma findall_sound n (l : list ascii) group :
  (length l <= n)%nat ->
  group ∈ findall l ->
  exists before after,
    l = (before ++ "{"%char :: group ++ "}"%char :: after)%list
    /\ ("}"%char ∉ group) /\ (newline ∉ group).
Proof.
  revert l. induction n as [|n IH]; intros [|c l] Hlen;
    rewrite ?findall_equation_1; try (by intros ?%elem_of_nil);
    simpl in Hlen; [lia|].
  rewrite findall_cons.
  destruct (match_here (c :: l)) as [[g a]|] eqn:Hm.
  - pose proof (match_here_shorter _ _ _ Hm) as Hshort. simpl in Hshort.
    intros [->|Hin]%elem_of_cons.
    + destruct c as [[] [] [] [] [] [] [] []]; try discriminate.
      simpl in Hm. apply lazy_group_sound in Hm as (-> & ? & ?).
      by exists [], a.
    + destruct (IH a ltac:(lia) Hin) as (before & after & -> & ? & ?).
      destruct c as [[] [] [] [] [] [] [] []]; try discriminate.
      simpl in Hm. apply lazy_group_sound in Hm as (-> & _ & _).
      exists ("{"%char :: g ++ "}"%char :: before), after.
      split; [|done]. simpl. by rewrite <- app_assoc.
  - intros Hin. destruct (IH l ltac:(lia) Hin) as (before & after & -> & ? & ?).
    by exists (c :: before), after.
Qed.

End PathParamsProperties.

(** C9. On a path template (literal texts without an opening brace,
    names without a closing brace or a newline) the result is the set of
    the names written between braces, each once; on
    "/items/{id}/sub/{name}" it is the set of "id" and "name".  On any
    string at all, every name in the result stands between braces in the
    string. *)
Theorem get_path_param_names_template :
  (forall template : list PathParams.segment,
     Forall PathParams.well_formed_segment template ->
     PathParams.get_path_param_names (PathParams.render template)
     = list_to_set (PathParams.declared_names template))
  /\ PathParams.get_path_param_names "/items/{id}/sub/{name}" = {[ "id"; "name" ]}
  /\ size (PathParams.get_path_param_names "/items/{id}/sub/{name}") = 2%nat
  /\ (forall path name,
        name ∈ PathParams.get_path_param_names path ->
        exists before after,
          path = before ++ "{" ++ name ++ "}" ++ after).
Proof.
  split; [|split; [|split]].
  - intros template Hwf. unfold PathParams.get_path_param_names.
    by rewrite findall_render.
  - reflexivity.
  - reflexivity.
  - intros path name. unfold PathParams.get_path_param_names.
    rewrite elem_of_list_to_set, list_elem_of_fmap.
    intros (group & -> & Hin).
    apply (findall_sound _ _ _ (le_n _)) in Hin
      as (before & after & Hpath & _ & _).
    exists (string_of_list_ascii before), (string_of_list_ascii after).
    rewrite <- (string_of_list_ascii_of_string path), Hpath.
    rewrite string_of_list_ascii_app. simpl.
    by rewrite string_of_list_ascii_app.
Qed.

Lemma get_path_param_names_template_witness :
  PathParams.get_path_param_names "/users/{user_id}/items/{user_id}"
  = {[ "user_id" ]}.
Proof.
  pose (template := [PathParams.Literal "/users/"; PathParams.Param "user_id";
                     PathParams.Literal "/items/"; PathParams.Param "user_id"]).
  change "/users/{user_id}/items/{user_id}" with (PathParams.render template).
  rewrite (proj1 get_path_param_names_template template).
  - reflexivity.
  - repeat constructor; simpl; rewrite ?elem_of_cons, ?elem_of_nil;
      intros H; repeat destruct H as [H|H]; try discriminate H; exact H.
Defined.

(** ** The deep dictionary merge *)

(** Facts about footprints: the other hypotheses are dropped, the facts
    are unfolded to membership and used at every location at hand. *)
Ltac footprints :=
  repeat match goal with
         | H : ?P |- _ =>
             lazymatch P with
             | _ ## _ => fail
             | _ ⊆ _ => fail
             | ¬ (@elem_of _ (gset _) _ _ _) => fail
             | @elem_of _ (gset _) _ _ _ => fail
             | @eq (gset _) _ _ => fail
             | _ => clear H
             end
         end;
  set_unfold; intros;
  repeat match goal with
         | H : forall y : DictUpdate.loc, _ |- _ =>
             repeat match goal with
                    | x : DictUpdate.loc |- _ =>
                        lazymatch type of (H x) with
                        | ?T => lazymatch goal with
                                | _ : T |- _ => fail
                                | _ => pose proof (H x)
                                end
                        end
                    end;
             clear H
         end;
  first [tauto | intuition (subst; try congruence; eauto)].

(** Representations in a store that is given in full. *)
Ltac concrete_nodup :=
  repeat (apply NoDup_cons_2;
          [rewrite ?elem_of_cons, ?elem_of_nil; intuition discriminate|]);
  apply NoDup_nil_2.

Ltac concrete_rep :=
  lazymatch goal with
  | |- DictUpdate.rep _ (DictUpdate.VAtom _) _ _ => apply DictUpdate.rep_atom
  | |- DictUpdate.rep _ (DictUpdate.VRef _) (DictUpdate.TList _) _ =>
      eapply DictUpdate.rep_list; [reflexivity|concrete_rep]
  | |- DictUpdate.rep _ (DictUpdate.VRef _) (DictUpdate.TDict _) _ =>
      eapply DictUpdate.rep_dict; [reflexivity|concrete_nodup|shelve|concrete_rep]
  | |- DictUpdate.rep_elems _ [] _ _ => apply DictUpdate.rep_elems_nil
  | |- DictUpdate.rep_elems _ (_ :: _) _ _ =>
      eapply DictUpdate.rep_elems_cons; [concrete_rep|concrete_rep|shelve]
  | |- DictUpdate.rep_items _ [] _ _ => apply DictUpdate.rep_items_nil
  | |- DictUpdate.rep_items _ (_ :: _) _ _ =>
      eapply DictUpdate.rep_items_cons; [concrete_rep|concrete_rep|shelve]
  end.

Section DictUpdateProperties.
Import DictUpdate.
Local Open Scope list_scope.
Implicit Types (σ : store) (v : val) (t : tree) (F X : gset loc).

Lemma rep_footprint_dicts σ :
  (forall v t F, rep σ v t F ->
     forall l, l ∈ F -> exists items, σ !! l = Some (ODict items))
  /\ (forall vs ts F, rep_elems σ vs ts F ->
     forall l, l ∈ F -> exists items, σ !! l = Some (ODict items))
  /\ (forall kvs kts F, rep_items σ kvs kts F ->
     forall l, l ∈ F -> exists items, σ !! l = Some (ODict items)).
Proof.
  apply rep_mutind; intros; set_solver.
Qed.

Lemma rep_frame σ :
  (forall v t F, rep σ v t F ->
     forall σ' X, preserved X σ σ' -> F ## X ->
       (forall l, l ∈ X -> exists items, σ !! l = Some (ODict items)) ->
       rep σ' v t F)
  /\ (forall vs ts F, rep_elems σ vs ts F ->
     forall σ' X, preserved X σ σ' -> F ## X ->
       (forall l, l ∈ X -> exists items, σ !! l = Some (ODict items)) ->
       rep_elems σ' vs ts F)
  /\ (forall kvs kts F, rep_items σ kvs kts F ->
     forall σ' X, preserved X σ σ' -> F ## X ->
       (forall l, l ∈ X -> exists items, σ !! l = Some (ODict items)) ->
       rep_items σ' kvs kts F).
Proof.
  apply rep_mutind.
  - constructor.
  - intros l elems ts F Hl _ IH σ' X Hpres Hdisj Hdicts.
    econstructor; [|by eapply IH].
    apply (Hpres _ _ Hl). intros [items Hitems]%Hdicts. congruence.
  - intros l items kts F Hl Hnodup Hfresh _ IH σ' X Hpres Hdisj Hdicts.
    econstructor; [|done|done|eapply IH; [done|set_solver|done]].
    apply (Hpres _ _ Hl). set_solver.
  - constructor.
  - intros v t vs ts F1 F2 _ IH1 _ IH2 Hdisj σ' X Hpres HX Hdicts.
    constructor; [eapply IH1|eapply IH2|]; try done; set_solver.
  - constructor.
  - intros k v t items kts F1 F2 _ IH1 _ IH2 Hdisj σ' X Hpres HX Hdicts.
    constructor; [eapply IH1|eapply IH2|]; try done; set_solver.
Qed.

(** Lookup and update of items. *)
Lemma dict_get_None {V} (k : string) (items : list (string * V)) :
  dict_get k items = None <-> k ∉ items.*1.
Proof.
  induction items as [|[k' v] items IH]; simpl.
  - split; [intros _; apply not_elem_of_nil|done].
  - destruct (decide (k' = k)) as [->|Hne].
    + split; [done|]. intros []. left.
    + rewrite IH, not_elem_of_cons. naive_solver.
Qed.

Lemma dict_get_split {V} (k : string) (v : V) (items : list (string * V)) :
  dict_get k items = Some v ->
  exists pre post, items = (pre ++ (k, v) :: post)%list /\ k ∉ pre.*1.
Proof.
  induction items as [|[k' w] items IH]; simpl; [done|].
  destruct (decide (k' = k)) as [->|Hne].
  - intros [= ->]. exists [], items. split; [done|apply not_elem_of_nil].
  - intros (pre & post & -> & Hpre)%IH.
    exists ((k', w) :: pre), post. split; [done|].
    simpl. rewrite not_elem_of_cons. done.
Qed.

Lemma dict_get_middle {V} (k : string) (v : V) (pre post : list (string * V)) :
  k ∉ pre.*1 -> dict_get k (pre ++ (k, v) :: post)%list = Some v.
Proof.
  induction pre as [|[k' w] pre IH]; simpl.
  - intros _. by rewrite decide_True.
  - rewrite not_elem_of_cons. intros [Hne Hpre].
    rewrite decide_False by done. by apply IH.
Qed.

Lemma dict_set_middle {V} (k : string) (v v' : V) (pre post : list (string * V)) :
  k ∉ pre.*1 ->
  dict_set k v' (pre ++ (k, v) :: post)%list = (pre ++ (k, v') :: post)%list.
Proof.
  induction pre as [|[k' w] pre IH]; simpl.
  - intros _. by rewrite decide_True.
  - rewrite not_elem_of_cons. intros [Hne Hpre].
    rewrite decide_False by done. by rewrite IH.
Qed.

Lemma dict_set_absent {V} (k : string) (v : V) (items : list (string * V)) :
  k ∉ items.*1 -> dict_set k v items = (items ++ [(k, v)])%list.
Proof.
  induction items as [|[k' w] items IH]; simpl; [done|].
  rewrite not_elem_of_cons. intros [Hne Hitems].
  rewrite decide_False by done. by rewrite IH.
Qed.

Lemma dict_set_keys {V} (k : string) (v : V) (items : list (string * V)) :
  (dict_set k v items).*1
  = if decide (k ∈ items.*1) then items.*1 else (items.*1 ++ [k])%list.
Proof.
  induction items as [|[k' w] items IH]; [done|].
  cbn [dict_set]. destruct (decide (k' = k)) as [->|Hne];
    rewrite !fmap_cons; cbn [fst].
  - rewrite decide_True by left. done.
  - rewrite IH. destruct (decide (k ∈ items.*1)) as [Hin|Hout].
    + rewrite decide_True by (by right). done.
    + rewrite decide_False; [done|]. rewrite not_elem_of_cons. done.
Qed.

Lemma dict_set_NoDup {V} (k : string) (v : V) (items : list (string * V)) :
  NoDup items.*1 -> NoDup (dict_set k v items).*1.
Proof.
  intros Hnodup. rewrite dict_set_keys. case_decide; [done|].
  apply NoDup_app. split; [done|]. split; [|apply NoDup_singleton].
  intros x Hx ->%list_elem_of_singleton. done.
Qed.

(** The shape of a represented value. *)
Lemma rep_kind σ v t F :
  rep σ v t F ->
  match t with
  | TAtom a => v = VAtom a
  | TList ts =>
      exists l elems,
        v = VRef l /\ σ !! l = Some (OList elems) /\ rep_elems σ elems ts F
  | TDict kts =>
      exists l items F',
        v = VRef l /\ σ !! l = Some (ODict items) /\ NoDup items.*1
        /\ (l ∉ F') /\ rep_items σ items kts F' /\ F = {[l]} ∪ F'
  end.
Proof. destruct 1; eauto 10. Qed.

Lemma rep_items_keys σ kvs kts F : rep_items σ kvs kts F -> kts.*1 = kvs.*1.
Proof. induction 1; [done|]. rewrite !fmap_cons; cbn [fst]. by f_equal. Qed.

Lemma rep_eq σ v t F F' : rep σ v t F -> F = F' -> rep σ v t F'.
Proof. by intros ? <-. Qed.

Lemma rep_items_eq σ kvs kts F F' :
  rep_items σ kvs kts F -> F = F' -> rep_items σ kvs kts F'.
Proof. by intros ? <-. Qed.

Lemma rep_elems_eq σ vs ts F F' :
  rep_elems σ vs ts F -> F = F' -> rep_elems σ vs ts F'.
Proof. by intros ? <-. Qed.

Lemma rep_items_app σ kvs1 kts1 F1 kvs2 kts2 F2 :
  rep_items σ kvs1 kts1 F1 -> rep_items σ kvs2 kts2 F2 -> F1 ## F2 ->
  rep_items σ (kvs1 ++ kvs2) (kts1 ++ kts2) (F1 ∪ F2).
Proof.
  induction 1 as [|k v t items kts Fa Fb Hv Hitems IH Hdisj]; intros H2 H12; simpl.
  - eapply rep_items_eq; [done|set_solver].
  - eapply rep_items_eq.
    + constructor; [done|apply IH; [done|set_solver]|set_solver].
    + set_solver.
Qed.

Lemma rep_elems_app σ vs1 ts1 F1 vs2 ts2 F2 :
  rep_elems σ vs1 ts1 F1 -> rep_elems σ vs2 ts2 F2 -> F1 ## F2 ->
  rep_elems σ (vs1 ++ vs2) (ts1 ++ ts2) (F1 ∪ F2).
Proof.
  induction 1 as [|v t vs ts Fa Fb Hv Hvs IH Hdisj]; intros H2 H12; simpl.
  - eapply rep_elems_eq; [done|set_solver].
  - eapply rep_elems_eq.
    + constructor; [done|apply IH; [done|set_solver]|set_solver].
    + set_solver.
Qed.

Lemma rep_items_split σ pre k v post kts F :
  rep_items σ (pre ++ (k, v) :: post) kts F ->
  exists tpre t tpost Fpre Fv Fpost,
    kts = (tpre ++ (k, t) :: tpost)%list
    /\ rep_items σ pre tpre Fpre /\ rep σ v t Fv /\ rep_items σ post tpost Fpost
    /\ F = Fpre ∪ Fv ∪ Fpost /\ Fpre ## Fv /\ Fpre ## Fpost /\ Fv ## Fpost.
Proof.
  revert kts F. induction pre as [|[k' w] pre IH]; intros kts F; simpl.
  - inversion 1 as [|? ? t ? tpost Fv Fpost Hv Hpost Hdisj]; subst.
    exists [], t, tpost, ∅, Fv, Fpost.
    split; [done|]. split; [constructor|]. set_solver.
  - inversion 1 as [|? ? t' ? kts' Fw F' Hw Hrest Hdisj]; subst.
    apply IH in Hrest
      as (tpre & t & tpost & Fpre & Fv & Fpost & -> & Hpre & Hv & Hpost
          & -> & ? & ? & ?).
    exists ((k', t') :: tpre), t, tpost, (Fw ∪ Fpre), Fv, Fpost.
    split; [done|]. split; [constructor; [done|done|set_solver]|].
    set_solver.
Qed.

Lemma rep_items_join σ pre tpre Fpre k v t Fv post tpost Fpost :
  rep_items σ pre tpre Fpre -> rep σ v t Fv -> rep_items σ post tpost Fpost ->
  Fpre ## Fv -> Fpre ## Fpost -> Fv ## Fpost ->
  rep_items σ (pre ++ (k, v) :: post) (tpre ++ (k, t) :: tpost)
    (Fpre ∪ Fv ∪ Fpost).
Proof.
  intros Hpre Hv Hpost ? ? ?. eapply rep_items_eq.
  - apply rep_items_app; [done| |]; [by constructor|set_solver].
  - set_solver.
Qed.

Lemma merge_nil M : merge M (TDict []) = M.
Proof. by destruct M. Qed.

Lemma merge_cons M k t rest :
  merge M (TDict ((k, t) :: rest))
  = merge (dict_set k (merge_value merge (dict_get k M) t) M) (TDict rest).
Proof. reflexivity. Qed.

Lemma depth_item k t items : (k, t) ∈ items -> (depth t < depth (TDict items))%nat.
Proof.
  simpl. induction items as [|[k' t'] items IH].
  - by intros ?%elem_of_nil.
  - intros [[= <- <-]|Hin]%elem_of_cons.
    + lia.
    + apply IH in Hin. lia.
Qed.

Lemma preserved_insert_dict σ m items items' :
  σ !! m = Some (ODict items) -> preserved {[m]} σ (<[m := ODict items']> σ).
Proof.
  intros Hm l o Hl. split.
  - intros Hne. rewrite lookup_insert_ne; [done|set_solver].
  - intros its ->. destruct (decide (l = m)) as [->|Hne].
    + rewrite lookup_insert_eq. eauto.
    + rewrite lookup_insert_ne by done. eauto.
Qed.

Lemma singleton_dicts σ m items :
  σ !! m = Some (ODict items) ->
  forall l, l ∈ ({[m]} : gset loc) -> exists items, σ !! l = Some (ODict items).
Proof. intros Hm l ->%elem_of_singleton. eauto. Qed.

(** [main_dict[key] = v] for a key that the dictionary has. *)
Lemma setitem_replace σ m pre k old post tpre tpost Fpre Fpost v t Fv :
  σ !! m = Some (ODict (pre ++ (k, old) :: post)) ->
  NoDup (pre ++ (k, old) :: post).*1 -> k ∉ pre.*1 ->
  rep_items σ pre tpre Fpre -> rep_items σ post tpost Fpost ->
  rep σ v t Fv ->
  m ∉ Fpre ∪ Fv ∪ Fpost -> Fpre ## Fv -> Fpre ## Fpost -> Fv ## Fpost ->
  exists σ',
    setitem m k v σ = Some (Ret (), σ')
    /\ σ' !! m = Some (ODict (pre ++ (k, v) :: post))
    /\ NoDup (pre ++ (k, v) :: post).*1
    /\ rep_items σ' (pre ++ (k, v) :: post) (tpre ++ (k, t) :: tpost)
         (Fpre ∪ Fv ∪ Fpost)
    /\ preserved {[m]} σ σ'.
Proof.
  intros Hm Hnodup Hk Hpre Hpost Hv Hfresh ? ? ?.
  exists (<[m := ODict (pre ++ (k, v) :: post)]> σ).
  pose proof (preserved_insert_dict σ m _ (pre ++ (k, v) :: post) Hm) as Hpres.
  pose proof (singleton_dicts σ m _ Hm) as Hdicts.
  split; [|split; [|split; [|split]]].
  - unfold setitem. rewrite Hm. by rewrite dict_set_middle.
  - apply lookup_insert_eq.
  - by rewrite fmap_app, fmap_cons in *.
  - apply rep_items_join; try done.
    + eapply (proj2 (proj2 (rep_frame σ))); [done..|set_solver|done].
    + eapply (proj1 (rep_frame σ)); [done..|set_solver|done].
    + eapply (proj2 (proj2 (rep_frame σ))); [done..|set_solver|done].
  - done.
Qed.

(** [main_dict[key] = v] for a new key. *)
Lemma setitem_append σ m items kts F k v t Fv :
  σ !! m = Some (ODict items) -> NoDup items.*1 -> k ∉ items.*1 ->
  rep_items σ items kts F -> rep σ v t Fv ->
  m ∉ F ∪ Fv -> F ## Fv ->
  exists σ',
    setitem m k v σ = Some (Ret (), σ')
    /\ σ' !! m = Some (ODict (items ++ [(k, v)]))
    /\ NoDup (items ++ [(k, v)]).*1
    /\ rep_items σ' (items ++ [(k, v)]) (kts ++ [(k, t)]) (F ∪ Fv)
    /\ preserved {[m]} σ σ'.
Proof.
  intros Hm Hnodup Hk Hitems Hv Hfresh ?.
  exists (<[m := ODict (items ++ [(k, v)])]> σ).
  pose proof (preserved_insert_dict σ m _ (items ++ [(k, v)]) Hm) as Hpres.
  pose proof (singleton_dicts σ m _ Hm) as Hdicts.
  split; [|split; [|split; [|split]]].
  - unfold setitem. rewrite Hm. by rewrite dict_set_absent.
  - apply lookup_insert_eq.
  - rewrite fmap_app. apply NoDup_app. split; [done|].
    split; [|apply NoDup_singleton].
    intros x Hx ->%list_elem_of_singleton. done.
  - apply rep_items_app.
    + eapply (proj2 (proj2 (rep_frame σ))); [done..|set_solver|done].
    + eapply rep_items_eq.
      * constructor; [|constructor|].
        -- eapply (proj1 (rep_frame σ)); [done..|set_solver|done].
        -- set_solver.
      * set_solver.
    + done.
  - done.
Qed.

Lemma preserved_weaken X Y σ σ' : preserved X σ σ' -> X ⊆ Y -> preserved Y σ σ'.
Proof.
  intros H HXY l o Hl. destruct (H l o Hl) as [Hout Hdict].
  split; [|done]. intros Hl'. apply Hout. set_solver.
Qed.

Lemma preserved_trans X σ1 σ2 σ3 :
  preserved X σ1 σ2 -> preserved X σ2 σ3 -> preserved X σ1 σ3.
Proof.
  intros H12 H23 l o Hl. destruct (H12 l o Hl) as [Hout Hdict]. split.
  - intros Hl'. apply (H23 l o); [|done]. by apply Hout.
  - intros items ->. destruct (Hdict items eq_refl) as [items' Hl'].
    by apply (proj2 (H23 l _ Hl') items').
Qed.

Lemma preserved_alloc σ o :
  preserved ∅ σ (alloc o σ).2.
Proof.
  intros l o' Hl. unfold alloc. simpl.
  assert (fresh (dom σ) ≠ l) as Hne.
  { intros <-. pose proof (is_fresh (dom σ)) as Hfresh.
    apply Hfresh. apply elem_of_dom. eauto. }
  rewrite lookup_insert_ne by done. split; [done|]. intros items ->. eauto.
Qed.

Lemma alloc_lookup σ o : (alloc o σ).2 !! (alloc o σ).1 = Some o.
Proof. unfold alloc. simpl. apply lookup_insert_eq. Qed.


Lemma rep_frame_val σ σ' X v t F :
  rep σ v t F -> preserved X σ σ' -> F ## X ->
  (forall l, l ∈ X -> exists items, σ !! l = Some (ODict items)) ->
  rep σ' v t F.
Proof. intros ? ? ? ?. by eapply (proj1 (rep_frame σ)). Qed.

Lemma rep_frame_elems σ σ' X vs ts F :
  rep_elems σ vs ts F -> preserved X σ σ' -> F ## X ->
  (forall l, l ∈ X -> exists items, σ !! l = Some (ODict items)) ->
  rep_elems σ' vs ts F.
Proof. intros ? ? ? ?. by eapply (proj1 (proj2 (rep_frame σ))). Qed.

Lemma rep_frame_items σ σ' X kvs kts F :
  rep_items σ kvs kts F -> preserved X σ σ' -> F ## X ->
  (forall l, l ∈ X -> exists items, σ !! l = Some (ODict items)) ->
  rep_items σ' kvs kts F.
Proof. intros ? ? ? ?. by eapply (proj2 (proj2 (rep_frame σ))). Qed.

Lemma no_dicts_needed σ :
  forall l, l ∈ (∅ : gset loc) -> exists items, σ !! l = Some (ODict items).
Proof. by intros l ?%elem_of_empty. Qed.

Lemma preserved_dicts X Y σ σ' :
  (forall l, l ∈ X -> exists items, σ !! l = Some (ODict items)) ->
  preserved Y σ σ' ->
  forall l, l ∈ X -> exists items, σ' !! l = Some (ODict items).
Proof.
  intros Hdicts Hpres l [items Hl]%Hdicts.
  by apply (proj2 (Hpres l _ Hl) items).
Qed.

Lemma preserved_lookup X σ σ' l o :
  preserved X σ σ' -> σ !! l = Some o -> l ∉ X -> σ' !! l = Some o.
Proof. intros Hpres Hl. by apply Hpres. Qed.

(** A value holds one tree, with one footprint. *)
Lemma rep_functional σ :
  (forall v t F, rep σ v t F ->
     forall t' F', rep σ v t' F' -> t = t' /\ F = F')
  /\ (forall vs ts F, rep_elems σ vs ts F ->
     forall ts' F', rep_elems σ vs ts' F' -> ts = ts' /\ F = F')
  /\ (forall kvs kts F, rep_items σ kvs kts F ->
     forall kts' F', rep_items σ kvs kts' F' -> kts = kts' /\ F = F').
Proof.
  apply rep_mutind.
  - intros a t' F'. by inversion 1.
  - intros l elems ts F Hl _ IH t' F'.
    inversion 1 as [|? elems' ? ? Hl' Helems'|? items' ? ? Hl']; subst;
      rewrite Hl in Hl'; [injection Hl' as <-|discriminate Hl'].
    by destruct (IH _ _ Helems') as [-> ->].
  - intros l items kts F Hl _ _ _ IH t' F'.
    inversion 1 as [|? elems' ? ? Hl'|? items' ? ? Hl' _ _ Hitems']; subst;
      rewrite Hl in Hl'; [discriminate Hl'|injection Hl' as <-].
    by destruct (IH _ _ Hitems') as [-> ->].
  - intros ts' F'. by inversion 1.
  - intros v t vs ts F1 F2 _ IH1 _ IH2 _ ts' F'.
    inversion 1 as [|? ? ? ? ? ? Hv' Hvs']; subst.
    destruct (IH1 _ _ Hv') as [-> ->].
    by destruct (IH2 _ _ Hvs') as [-> ->].
  - intros kts' F'. by inversion 1.
  - intros k v t items kts F1 F2 _ IH1 _ IH2 _ kts' F'.
    inversion 1 as [|? ? ? ? ? ? ? Hv' Hitems']; subst.
    destruct (IH1 _ _ Hv') as [-> ->].
    by destruct (IH2 _ _ Hitems') as [-> ->].
Qed.

Lemma rep_items_lookup σ kvs kts F k v :
  rep_items σ kvs kts F -> dict_get k kvs = Some v ->
  exists t Fv, rep σ v t Fv /\ Fv ⊆ F.
Proof.
  induction 1 as [|k' v' t' items kts F1 F2 Hv' Hitems IH Hdisj]; simpl; [done|].
  destruct (decide (k' = k)) as [->|Hne].
  - intros [= ->]. exists t', F1. split; [done|set_solver].
  - intros (t & Fv & Hv & Hsub)%IH. exists t, Fv. split; [done|set_solver].
Qed.

Lemma dict_get_middle_ne {V} (k k' : string) (a b : V)
    (pre post : list (string * V)) :
  k' ≠ k ->
  dict_get k' (pre ++ (k, a) :: post)%list = dict_get k' (pre ++ post)%list.
Proof.
  intros Hne. induction pre as [|[k0 w] pre IH]; simpl.
  - by rewrite decide_False.
  - by rewrite IH.
Qed.

Lemma dict_get_snoc_ne {V} (k k' : string) (a : V) (items : list (string * V)) :
  k' ≠ k ->
  dict_get k' (items ++ [(k, a)])%list = dict_get k' items.
Proof.
  intros Hne. induction items as [|[k0 w] items IH]; simpl.
  - by rewrite decide_False.
  - by rewrite IH.
Qed.

(** The items under the other keys, when the item under [k] changes. *)
Lemma others_kept σ σ' X pre k (a b : val) post tpre tpost Fpre Fpost :
  rep_items σ pre tpre Fpre -> rep_items σ post tpost Fpost -> Fpre ## Fpost ->
  preserved X σ σ' -> Fpre ∪ Fpost ## X ->
  (forall l, l ∈ X -> exists items, σ !! l = Some (ODict items)) ->
  forall k' v', k' ≠ k ->
    dict_get k' (pre ++ (k, b) :: post)%list = Some v' ->
    dict_get k' (pre ++ (k, a) :: post)%list = Some v'
    /\ exists t0 F0, rep σ v' t0 F0 /\ rep σ' v' t0 F0.
Proof.
  intros Hpre Hpost Hdisj Hpres HX Hdicts k' v' Hne.
  rewrite !(dict_get_middle_ne k k') by done. intros Hget. split; [done|].
  pose proof (rep_items_app _ _ _ _ _ _ _ Hpre Hpost Hdisj) as Hall.
  destruct (rep_items_lookup _ _ _ _ _ _ Hall Hget) as (t0 & F0 & Hv' & Hsub).
  exists t0, F0. split; [done|].
  apply (rep_frame_val σ σ' X); [done|done|set_solver|done].
Qed.

Lemma others_kept_snoc σ σ' X items k (b : val) kts F :
  rep_items σ items kts F ->
  preserved X σ σ' -> F ## X ->
  (forall l, l ∈ X -> exists items, σ !! l = Some (ODict items)) ->
  forall k' v', k' ≠ k ->
    dict_get k' (items ++ [(k, b)])%list = Some v' ->
    dict_get k' items = Some v'
    /\ exists t0 F0, rep σ v' t0 F0 /\ rep σ' v' t0 F0.
Proof.
  intros Hitems Hpres HX Hdicts k' v' Hne.
  rewrite dict_get_snoc_ne by done. intros Hget. split; [done|].
  destruct (rep_items_lookup _ _ _ _ _ _ Hitems Hget) as (t0 & F0 & Hv' & Hsub).
  exists t0, F0. split; [done|].
  apply (rep_frame_val σ σ' X); [done|done|set_solver|done].
Qed.

Section Step.
(** The loop body and the loop, for a recursive call [self] that meets the
    specification on updates of depth at most [fuel]. *)
Variable self : loc -> loc -> comp store unit.
Variable fuel : nat.
Hypothesis self_correct :
  forall σ m u M U Fm Fu,
    rep σ (VRef m) (TDict M) Fm -> rep σ (VRef u) (TDict U) Fu -> Fm ## Fu ->
    (depth (TDict U) <= fuel)%nat ->
    exists σ' F',
      self m u σ = Some (Ret (), σ')
      /\ rep σ' (VRef m) (TDict (merge M (TDict U))) F'
      /\ F' ⊆ Fm ∪ Fu /\ preserved Fm σ σ'.

(** One item of the update.  [W] holds the footprint of the value that
    the main dictionary has under the key. *)
Lemma update_item_correct σ m u uitems mitems M Fi k v t Fv W :
  σ !! u = Some (ODict uitems) -> dict_get k uitems = Some v ->
  σ !! m = Some (ODict mitems) -> NoDup mitems.*1 -> m ∉ Fi ->
  rep_items σ mitems M Fi ->
  rep σ v t Fv -> ({[m]} ∪ Fi) ## Fv -> (depth t <= fuel)%nat ->
  (forall mv told Fold,
     dict_get k mitems = Some mv -> rep σ mv told Fold -> Fold ⊆ W) ->
  exists σ' mitems' F',
    update_item self m u k v σ = Some (Ret (), σ')
    /\ σ' !! m = Some (ODict mitems') /\ NoDup mitems'.*1 /\ (m ∉ F')
    /\ rep_items σ' mitems' (dict_set k (merge_value merge (dict_get k M) t) M) F'
    /\ F' ⊆ Fi ∪ Fv /\ preserved ({[m]} ∪ W) σ σ'
    /\ (forall k' v', k' ≠ k -> dict_get k' mitems' = Some v' ->
          dict_get k' mitems = Some v'
          /\ exists t0 F0, rep σ v' t0 F0 /\ rep σ' v' t0 F0).
Proof.
  intros Hu Hget Hm Hnodup Hfresh Hitems Hv Hdisj Hdepth HW.
  pose proof (rep_items_keys _ _ _ _ Hitems) as Hkeys.
  pose proof (singleton_dicts σ m _ Hm) as Hmdict.
  destruct (dict_get k mitems) as [mv|] eqn:Hmget.
  2:{ (* a new key *)
    apply dict_get_None in Hmget.
    assert (dict_get k M = None) as HMget
      by (apply dict_get_None; by rewrite Hkeys).
    rewrite HMget. cbn [merge_value].
    rewrite dict_set_absent by (by rewrite Hkeys).
    destruct (setitem_append σ m mitems M Fi k v t Fv)
      as (σ' & Hset & Hm' & Hnodup' & Hrep' & Hpres);
      [exact Hm|exact Hnodup|exact Hmget|exact Hitems|exact Hv|footprints..|].
    exists σ', (mitems ++ [(k, v)])%list, (Fi ∪ Fv).
    split.
    { unfold update_item. rewrite Hm. apply dict_get_None in Hmget.
      by rewrite Hmget. }
    split; [exact Hm'|]. split; [exact Hnodup'|]. split; [footprints|].
    split; [exact Hrep'|]. split; [footprints|].
    split; [eapply preserved_weaken; [exact Hpres|footprints]|].
    apply (others_kept_snoc σ σ' {[m]} mitems k v M Fi);
      [exact Hitems|exact Hpres|footprints|exact Hmdict]. }
  specialize (HW mv).
  apply dict_get_split in Hmget as (pre & post & -> & Hpre).
  apply rep_items_split in Hitems
    as (tpre & told & tpost & Fpre & Fold & Fpost & -> & Hrpre & Hold & Hrpost
        & -> & ? & ? & ?).
  specialize (HW told Fold eq_refl Hold).
  assert (k ∉ tpre.*1) as Htpre by (by rewrite (rep_items_keys _ _ _ _ Hrpre)).
  rewrite dict_get_middle by done.
  assert (update_item self m u k v σ
          = match as_dict σ mv, as_dict σ v with
            | Some (lm, _), Some (lu, _) => self lm lu σ
            | _, _ =>
                match as_list σ mv, as_list σ v with
                | Some melems, Some uelems =>
                    setitem m k (VRef (alloc (OList (melems ++ uelems)) σ).1)
                      (alloc (OList (melems ++ uelems)) σ).2
                | _, _ => setitem m k v σ
                end
            end) as ->.
  { unfold update_item. rewrite Hm, dict_get_middle by done.
    rewrite Hu, Hget. destruct (as_dict σ mv) as [[lm ?]|];
      destruct (as_dict σ v) as [[lu ?]|]; try done;
      destruct (as_list σ mv) as [melems|]; try done;
      destruct (as_list σ v) as [uelems|]; done. }
  (* the three kinds of update *)
  assert ((exists m' u', told = TDict m' /\ t = TDict u')
          \/ (exists a b, told = TList a /\ t = TList b)
          \/ merge_value merge (Some told) t = t
             /\ (as_dict σ mv = None \/ as_dict σ v = None)
             /\ (as_list σ mv = None \/ as_list σ v = None)) as Hkind.
  { pose proof (rep_kind _ _ _ _ Hold) as Ho.
    pose proof (rep_kind _ _ _ _ Hv) as Hn.
    destruct told, t; eauto 10; right; right; (split; [done|]);
      repeat match goal with
             | H : exists _, _ |- _ => destruct H
             | H : _ /\ _ |- _ => destruct H
             end; subst; simpl;
      repeat match goal with H : _ !! _ = Some _ |- _ => rewrite H; clear H end;
      auto. }
  destruct Hkind as [(m' & u' & -> & ->)|[(a & b & -> & ->)|(Hmv & Hnd & Hnl)]].
  - (* two dictionaries: the recursive call *)
    apply rep_kind in Hold as Ho. destruct Ho
      as (lm & litems & Flm & -> & Hlm & _ & _ & _ & ->).
    apply rep_kind in Hv as Hn. destruct Hn
      as (lu & uitems' & Flu & -> & Hlu & _ & _ & _ & ->).
    unfold as_dict. rewrite Hlm, Hlu. cbn [merge_value].
    destruct (self_correct σ lm lu m' u' _ _ Hold Hv)
      as (σ' & F' & Hrun & Hrep' & Hsub & Hpres); [footprints|exact Hdepth|].
    pose proof (proj1 (rep_footprint_dicts σ) _ _ _ Hold) as Hdicts.
    exists σ', (pre ++ (k, VRef lm) :: post)%list, (Fpre ∪ F' ∪ Fpost).
    split; [exact Hrun|].
    split; [apply (preserved_lookup _ _ _ _ _ Hpres Hm); footprints|].
    split; [exact Hnodup|]. split; [footprints|].
    split; [|split; [footprints|split]].
    + rewrite dict_set_middle by exact Htpre.
      apply rep_items_join; [| exact Hrep' | |footprints..].
      * apply (rep_frame_items σ σ' ({[lm]} ∪ Flm));
          [exact Hrpre|exact Hpres|footprints|exact Hdicts].
      * apply (rep_frame_items σ σ' ({[lm]} ∪ Flm));
          [exact Hrpost|exact Hpres|footprints|exact Hdicts].
    + eapply preserved_weaken; [exact Hpres|footprints].
    + apply (others_kept σ σ' ({[lm]} ∪ Flm) pre k (VRef lm) (VRef lm) post
               tpre tpost Fpre Fpost);
        [exact Hrpre|exact Hrpost|footprints|exact Hpres|footprints|exact Hdicts].
  - (* two lists: a new list holds the concatenation *)
    apply rep_kind in Hold as (la & ea & -> & Hla & Hea).
    apply rep_kind in Hv as (lb & eb & -> & Hlb & Heb).
    unfold as_dict, as_list. rewrite Hla, Hlb. cbn [merge_value].
    set (σ1 := (alloc (OList (ea ++ eb)) σ).2).
    set (l := (alloc (OList (ea ++ eb)) σ).1).
    pose proof (preserved_alloc σ (OList (ea ++ eb))) as Hpres1. fold σ1 in Hpres1.
    pose proof (alloc_lookup σ (OList (ea ++ eb))) as Hl. fold σ1 l in Hl.
    pose proof (no_dicts_needed σ) as Hnone.
    destruct (setitem_replace σ1 m pre k (VRef la) post tpre tpost Fpre Fpost
                (VRef l) (TList (a ++ b)) (Fold ∪ Fv))
      as (σ' & Hset & Hm' & Hnodup' & Hrep' & Hpres);
      [ apply (preserved_lookup _ _ _ _ _ Hpres1 Hm); footprints
      | exact Hnodup | exact Hpre
      | apply (rep_frame_items σ σ1 ∅); [exact Hrpre|exact Hpres1|footprints|exact Hnone]
      | apply (rep_frame_items σ σ1 ∅); [exact Hrpost|exact Hpres1|footprints|exact Hnone]
      | | footprints.. | ].
    + econstructor; [exact Hl|]. apply rep_elems_app; [| |footprints].
      * apply (rep_frame_elems σ σ1 ∅); [exact Hea|exact Hpres1|footprints|exact Hnone].
      * apply (rep_frame_elems σ σ1 ∅); [exact Heb|exact Hpres1|footprints|exact Hnone].
    + assert (preserved {[m]} σ σ') as Hpres'.
      { eapply preserved_trans; [|exact Hpres].
        eapply preserved_weaken; [exact Hpres1|footprints]. }
      exists σ', (pre ++ (k, VRef l) :: post)%list, (Fpre ∪ (Fold ∪ Fv) ∪ Fpost).
      split; [exact Hset|]. split; [exact Hm'|]. split; [exact Hnodup'|].
      split; [footprints|].
      split; [by rewrite dict_set_middle|]. split; [footprints|].
      split; [eapply preserved_weaken; [exact Hpres'|footprints]|].
      apply (others_kept σ σ' {[m]} pre k (VRef la) (VRef l) post
               tpre tpost Fpre Fpost);
        [exact Hrpre|exact Hrpost|footprints|exact Hpres'|footprints|exact Hmdict].
  - (* anything else: the value of the update is stored *)
    rewrite Hmv.
    destruct (setitem_replace σ m pre k mv post tpre tpost Fpre Fpost v t Fv)
      as (σ' & Hset & Hm' & Hnodup' & Hrep' & Hpres);
      [exact Hm|exact Hnodup|exact Hpre|exact Hrpre|exact Hrpost|exact Hv
      |footprints..|].
    exists σ', (pre ++ (k, v) :: post)%list, (Fpre ∪ Fv ∪ Fpost).
    split.
    { rewrite <- Hset.
      destruct Hnd as [Hnd | Hnd], Hnl as [Hnl | Hnl]; rewrite Hnd, ?Hnl;
        try reflexivity;
        repeat match goal with
               | |- context [match ?x with _ => _ end] => destruct x
               end; reflexivity. }
    split; [exact Hm'|]. split; [exact Hnodup'|]. split; [footprints|].
    split; [by rewrite dict_set_middle|]. split; [footprints|].
    split; [eapply preserved_weaken; [exact Hpres|footprints]|].
    apply (others_kept σ σ' {[m]} pre k mv v post tpre tpost Fpre Fpost);
      [exact Hrpre|exact Hrpost|footprints|exact Hpres|footprints|exact Hmdict].
Qed.

Lemma for_items_unfold (body : string -> val -> comp store unit)
    u n0 todo σ uitems :
  σ !! u = Some (ODict uitems) -> length uitems = n0 ->
  for_items body u n0 todo σ
  = match todo with
    | O => Some (Ret (), σ)
    | S todo' =>
        match uitems !! (n0 - todo)%nat with
        | Some (key, value) =>
            match body key value σ with
            | Some (Ret _, σ') => for_items body u n0 todo' σ'
            | stop => stop
            end
        | None => Some (Ret (), σ)
        end
    end.
Proof.
  intros Hu Hlen. destruct todo; cbn [for_items]; rewrite Hu, Hlen;
    by rewrite Nat.eqb_refl.
Qed.

(** The loop, from the items [rest] of the update on: [W] holds the
    footprints of what the main dictionary has under the keys of
    [rest]. *)
Lemma for_items_correct rest :
  forall trest done σ m u uitems mitems M Fi Frest W,
    uitems = (done ++ rest)%list -> NoDup uitems.*1 ->
    σ !! u = Some (ODict uitems) ->
    σ !! m = Some (ODict mitems) -> NoDup mitems.*1 -> m ∉ Fi ->
    rep_items σ mitems M Fi ->
    rep_items σ rest trest Frest ->
    ({[m]} ∪ Fi ∪ W) ## Frest -> u ∉ {[m]} ∪ W ->
    (forall l, l ∈ W -> exists items, σ !! l = Some (ODict items)) ->
    (forall k t, (k, t) ∈ trest -> (depth t <= fuel)%nat) ->
    (forall k' v' t' F',
       k' ∈ rest.*1 -> dict_get k' mitems = Some v' -> rep σ v' t' F' ->
       F' ⊆ W) ->
    exists σ' mitems' F',
      for_items (update_item self m u) u (length uitems) (length rest) σ
      = Some (Ret (), σ')
      /\ σ' !! m = Some (ODict mitems') /\ NoDup mitems'.*1 /\ (m ∉ F')
      /\ rep_items σ' mitems' (merge M (TDict trest)) F'
      /\ F' ⊆ Fi ∪ Frest /\ preserved ({[m]} ∪ W) σ σ'.
Proof.
  induction rest as [|[k v] rest IH];
    intros trest done σ m u uitems mitems M Fi Frest W
      Huitems Hnodupu Hu Hm Hnodup Hfresh Hitems Hrest Hdisj Hu_out HW Hdepth
      Hpending.
  - inversion Hrest; subst.
    exists σ, mitems, Fi. rewrite (for_items_unfold _ _ _ _ _ _ Hu eq_refl).
    split; [done|]. split; [done|]. split; [done|]. split; [done|].
    split; [by rewrite merge_nil|]. split; [footprints|].
    intros l o Hl. split; [done|]. intros items ->. eauto.
  - inversion Hrest as [|? ? t ? trest' F1 F2 Hv Hrest' Hdisj12]; subst.
    rewrite (for_items_unfold _ _ _ _ _ _ Hu eq_refl).
    assert ((k ∉ done.*1) /\ (k ∉ rest.*1)) as [Hkdone Hkrest].
    { rewrite fmap_app, fmap_cons in Hnodupu. cbn [fst] in Hnodupu.
      apply NoDup_app in Hnodupu as (_ & Hcross & Hnd).
      apply NoDup_cons in Hnd as [? _]. split; [|done].
      intros Hin. apply (Hcross _ Hin). left. }
    assert (dict_get k (done ++ (k, v) :: rest)%list = Some v) as Hget
      by (by apply dict_get_middle).
    assert ((done ++ (k, v) :: rest)%list
              !! (length (done ++ (k, v) :: rest)%list - length ((k, v) :: rest))%nat
            = Some (k, v)) as ->.
    { rewrite length_app. cbn [length].
      replace (length done + S (length rest) - S (length rest))%nat
        with (length done) by lia.
      apply list_lookup_middle. done. }
    destruct (update_item_correct σ m u _ mitems M Fi k v t F1 W Hu Hget Hm
                Hnodup Hfresh Hitems Hv)
      as (σ1 & mitems1 & Fi1 & Hrun & Hm1 & Hnodup1 & Hfresh1 & Hitems1 & Hsub1
          & Hpres1 & Hothers).
    { footprints. }
    { apply (Hdepth k). left. }
    { intros mv told Fold Hmv Hold. apply (Hpending k mv told Fold); [|done..].
      rewrite fmap_cons. left. }
    rewrite Hrun.
    pose proof (singleton_dicts σ m _ Hm) as Hmdict.
    assert (forall l, l ∈ {[m]} ∪ W -> exists items, σ !! l = Some (ODict items))
      as HmW.
    { intros l [Hl|Hl]%elem_of_union; [by apply Hmdict|by apply HW]. }
    destruct (IH trest' (done ++ [(k, v)])%list σ1 m u
                (done ++ (k, v) :: rest)%list mitems1
                (dict_set k (merge_value merge (dict_get k M) t) M) Fi1 F2 W)
      as (σ' & mitems' & F' & Hloop & Hm' & Hnodup' & Hfresh' & Hitems' & Hsub'
          & Hpres').
    + by rewrite <- app_assoc.
    + done.
    + apply (preserved_lookup _ _ _ _ _ Hpres1 Hu). done.
    + done.
    + done.
    + done.
    + done.
    + apply (rep_frame_items σ σ1 ({[m]} ∪ W)); [done|done|footprints|done].
    + footprints.
    + done.
    + eapply preserved_dicts; [exact HW|exact Hpres1].
    + intros k0 t0 Hin. apply (Hdepth k0). by right.
    + intros k' v' t' F' Hk' Hget' Hv'.
      assert (k' ≠ k) as Hne by (by intros ->).
      destruct (Hothers k' v' Hne Hget') as (Hget0 & t0 & F0 & Hrep0 & Hrep1).
      destruct (proj1 (rep_functional σ1) _ _ _ Hrep1 _ _ Hv') as [_ <-].
      apply (Hpending k' v' t0 F0); [|done..].
      rewrite fmap_cons. by right.
    + exists σ', mitems', F'.
      split; [exact Hloop|]. split; [done|]. split; [done|]. split; [done|].
      split; [by rewrite merge_cons|]. split; [footprints|].
      by eapply preserved_trans.
Qed.
End Step.

Lemma deep_dict_update_correct fuel :
  forall σ m u M U Fm Fu,
    rep σ (VRef m) (TDict M) Fm -> rep σ (VRef u) (TDict U) Fu -> Fm ## Fu ->
    (depth (TDict U) <= fuel)%nat ->
    exists σ' F',
      deep_dict_update fuel m u σ = Some (Ret (), σ')
      /\ rep σ' (VRef m) (TDict (merge M (TDict U))) F'
      /\ F' ⊆ Fm ∪ Fu /\ preserved Fm σ σ'.
Proof.
  induction fuel as [|fuel IH]; intros σ m u M U Fm Fu Hmain Hupd Hdisj Hdepth.
  - simpl in Hdepth. lia.
  - apply rep_kind in Hmain
      as (? & mitems & Fi & [= <-] & Hm & Hnodup & Hfresh & Hitems & ->).
    apply rep_kind in Hupd
      as (? & uitems & Fui & [= <-] & Hu & Hnodupu & Hfreshu & Huitems & ->).
    destruct (for_items_correct (deep_dict_update fuel) fuel IH uitems U [] σ m u
                uitems mitems M Fi Fui Fi)
      as (σ' & mitems' & F' & Hloop & Hm' & Hnodup' & Hfresh' & Hitems' & Hsub'
          & Hpres'); try done.
    + footprints.
    + footprints.
    + apply (proj2 (proj2 (rep_footprint_dicts σ)) _ _ _ Hitems).
    + intros k t Hin. apply depth_item in Hin. lia.
    + intros k' v' t' F' _ Hget Hv'.
      destruct (rep_items_lookup _ _ _ _ _ _ Hitems Hget) as (t0 & F0 & H0 & Hsub).
      by destruct (proj1 (rep_functional σ) _ _ _ H0 _ _ Hv') as [_ <-].
    + exists σ', ({[m]} ∪ F').
      split; [|split; [by econstructor|split; [footprints|]]].
      * cbn [deep_dict_update]. by rewrite Hu.
      * eapply preserved_weaken; [done|footprints].
Qed.

(** The merge, key by key. *)
Lemma dict_get_set {V} (k k' : string) (x : V) (items : list (string * V)) :
  dict_get k' (dict_set k x items)
  = if decide (k = k') then Some x else dict_get k' items.
Proof.
  induction items as [|[k0 w] items IH]; cbn [dict_set dict_get].
  - done.
  - destruct (decide (k0 = k)) as [->|Hne]; cbn [dict_get].
    + by destruct (decide (k = k')).
    + rewrite IH. destruct (decide (k0 = k')) as [->|?]; [|done].
      by rewrite decide_False.
Qed.

Lemma schema_main_rep :
  rep schema_store (VRef 1%nat) (TDict schema_main) {[1%nat; 3%nat]}.
Proof.
  eapply rep_eq; [unshelve concrete_rep; set_solver|set_solver].
Qed.

Lemma schema_update_rep :
  rep schema_store (VRef 2%nat) (TDict schema_update) {[2%nat; 4%nat]}.
Proof.
  eapply rep_eq; [unshelve concrete_rep; set_solver|set_solver].
Qed.

Lemma small_main_rep : rep small_store (VRef 1%nat) (TDict []) {[1%nat]}.
Proof.
  eapply rep_eq; [unshelve concrete_rep; set_solver|set_solver].
Qed.

Lemma small_update_rep :
  rep small_store (VRef 2%nat) (TDict [("a", TAtom (AInt 1))]) {[2%nat]}.
Proof.
  eapply rep_eq; [unshelve concrete_rep; set_solver|set_solver].
Qed.

Lemma merge_lookup U : forall M k,
  NoDup U.*1 ->
  dict_get k (merge M (TDict U))
  = match dict_get k U with
    | Some t => Some (merge_value merge (dict_get k M) t)
    | None => dict_get k M
    end.
Proof.
  induction U as [|[k0 t] U IH]; intros M k Hnodup.
  - by rewrite merge_nil.
  - rewrite fmap_cons in Hnodup. cbn [fst] in Hnodup.
    apply NoDup_cons in Hnodup as [Hk0 Hnodup].
    rewrite merge_cons, IH by done. cbn [dict_get].
    rewrite dict_get_set. destruct (decide (k0 = k)) as [->|Hne].
    + apply dict_get_None in Hk0. by rewrite Hk0.
    + done.
Qed.
End DictUpdateProperties.






(** ** The response field *)

(** C6, as stated, fails: the constructor of the example library rejects
    a field of type [Awaitable] with a [TypeError]; the construction
    fails, and what reaches the caller of [create_response_field] is
    this [TypeError], not a [FastAPIError]. *)
Lemma create_response_field_passes_TypeError :
  ExampleModels.ModelField_new
    (Fields.response_field_kwargs false ExampleModels.empty_dict
       ExampleModels.FieldInfo "item" (Fields.TyOther "Awaitable") None
       ExampleModels.Undefined ExampleModels.Undefined
       ExampleModels.BaseConfig None None)
    ExampleModels.node_store
  = (Raise TypeError, ExampleModels.node_store)
  /\ Fields.create_response_field false ExampleModels.empty_dict
       ExampleModels.FieldInfo ExampleModels.ModelField_new
       "item" (Fields.TyOther "Awaitable") None
       ExampleModels.Undefined ExampleModels.Undefined
       ExampleModels.BaseConfig None None ExampleModels.node_store
     = Some (Raise TypeError, ExampleModels.node_store)
  /\ TypeError <> FastAPIError.
Proof. split; [reflexivity|]. split; [reflexivity|discriminate]. Qed.

(** C6, amended. [create_response_field] returns the field that
    [ModelField] constructs; it raises [FastAPIError] exactly when the
    construction raises a [RuntimeError] (of any subclass) or a
    [PydanticSchemaGenerationError]; any other exception of the
    construction reaches the caller as it is. *)
Theorem create_response_field_errors {PyVal : Type} (V2 : bool)
    (empty_dict : PyVal)
    (FieldInfo : option Fields.ty -> option PyVal -> option string -> PyVal)
    (ModelField_new :
       @Fields.kwargs PyVal -> @Fields.store PyVal
       -> result Fields.loc * @Fields.store PyVal)
    (name : string) (type_ : Fields.ty) (class_validators : option PyVal)
    (default required model_config : PyVal) (field_info : option PyVal)
    (alias : option string) (σ : @Fields.store PyVal) :
  let kwargs :=
    Fields.response_field_kwargs V2 empty_dict FieldInfo name type_
      class_validators default required model_config field_info alias in
  let caught e := is_RuntimeError e || is_PydanticSchemaGenerationError e in
  let outcome :=
    Fields.create_response_field V2 empty_dict FieldInfo ModelField_new
      name type_ class_validators default required model_config field_info
      alias σ in
  (forall l σ', ModelField_new kwargs σ = (Ret l, σ') ->
     outcome = Some (Ret l, σ'))
  /\ (forall e σ', ModelField_new kwargs σ = (Raise e, σ') ->
        caught e = true -> outcome = Some (Raise FastAPIError, σ'))
  /\ (forall e σ', ModelField_new kwargs σ = (Raise e, σ') ->
        caught e = false -> outcome = Some (Raise e, σ') /\ e <> FastAPIError)
  /\ (forall σ', outcome = Some (Raise FastAPIError, σ') <->
        exists e, ModelField_new kwargs σ = (Raise e, σ') /\ caught e = true).
Proof.
  intros kwargs caught outcome. subst outcome.
  unfold Fields.create_response_field. fold kwargs.
  split; [by intros l σ' ->|].
  split.
  { intros e σ' -> Hc. unfold caught in Hc. by rewrite Hc. }
  split.
  { intros e σ' -> Hc. unfold caught in Hc. rewrite Hc. split; [done|].
    intros ->. discriminate Hc. }
  intros σ'. destruct (ModelField_new kwargs σ) as [[l|e] σ1] eqn:E.
  - split; [done|]. intros (e & [=] & _).
  - fold (caught e). destruct (caught e) eqn:Hc.
    + split.
      * intros [= <-]. by exists e.
      * intros (e' & [= <- <-] & _). done.
    + split.
      * intros [= -> <-]. discriminate Hc.
      * intros (e' & [= <- <-] & Hc'). congruence.
Qed.

(** C6, amended, at the example: the class [Response] has no validator,
    the library says so with a [RuntimeError], and the caller gets a
    [FastAPIError]; a field of type [int] is returned. *)
Lemma create_response_field_errors_witness :
  Fields.create_response_field false ExampleModels.empty_dict
    ExampleModels.FieldInfo ExampleModels.ModelField_new
    "item" (Fields.TyOther "Response") None
    ExampleModels.Undefined ExampleModels.Undefined
    ExampleModels.BaseConfig None None ExampleModels.node_store
  = Some (Raise FastAPIError, ExampleModels.node_store)
  /\ exists l σ',
       Fields.create_response_field false ExampleModels.empty_dict
         ExampleModels.FieldInfo ExampleModels.ModelField_new
         "item" (Fields.TyOther "int") None
         ExampleModels.Undefined ExampleModels.Undefined
         ExampleModels.BaseConfig None None ExampleModels.node_store
       = Some (Ret l, σ').
Proof.
  split.
  - apply (proj1 (proj2 (create_response_field_errors false
                           ExampleModels.empty_dict ExampleModels.FieldInfo
                           ExampleModels.ModelField_new "item"
                           (Fields.TyOther "Response") None
                           ExampleModels.Undefined ExampleModels.Undefined
                           ExampleModels.BaseConfig None None
                           ExampleModels.node_store)) RuntimeError);
      reflexivity.
  - eexists _, _.
    apply (proj1 (create_response_field_errors false
                    ExampleModels.empty_dict ExampleModels.FieldInfo
                    ExampleModels.ModelField_new "item"
                    (Fields.TyOther "int") None
                    ExampleModels.Undefined ExampleModels.Undefined
                    ExampleModels.BaseConfig None None
                    ExampleModels.node_store)).
    reflexivity.
Defined.

(** ** Cloning of fields *)

Section ComputationSteps.
Context {Σ : Type}.

Lemma bind_ret {A B} (m : comp Σ A) (k : A -> comp Σ B) σ a σ1 :
  m σ = Some (Ret a, σ1) -> (m ≫= k) σ = k a σ1.
Proof. intros H. unfold mbind, comp_bind. by rewrite H. Qed.

Lemma bind_raise {A B} (m : comp Σ A) (k : A -> comp Σ B) σ e σ1 :
  m σ = Some (Raise e, σ1) -> (m ≫= k) σ = Some (Raise e, σ1).
Proof. intros H. unfold mbind, comp_bind. by rewrite H. Qed.

Lemma bind_inv {A B} (m : comp Σ A) (k : A -> comp Σ B) σ r σ' :
  (m ≫= k) σ = Some (r, σ') ->
  (exists a σ1, m σ = Some (Ret a, σ1) /\ k a σ1 = Some (r, σ'))
  \/ (exists e, m σ = Some (Raise e, σ') /\ r = Raise e).
Proof.
  unfold mbind, comp_bind. destruct (m σ) as [[[a|e] σ1]|]; [eauto| |done].
  intros [= <- <-]. eauto.
Qed.

End ComputationSteps.

Section CloneProperties.
Import Fields.
Context {PyVal : Type}.
Implicit Types (σ : @store PyVal) (f g : @ModelField PyVal)
  (memo : gmap classid classid) (done : gmap classid (gset loc)).

Lemma get_field_ret σ l f :
  fields σ !! l = Some f -> get_field l σ = Some (Ret f, σ).
Proof. intros H. unfold get_field. by rewrite H. Qed.

Lemma get_class_ret σ c (cls : ModelClass) :
  classes σ !! c = Some cls -> get_class c σ = Some (Ret cls, σ).
Proof. intros H. unfold get_class. by rewrite H. Qed.

Lemma get_dict_ret σ d memo :
  dicts σ !! d = Some memo -> get_dict d σ = Some (Ret memo, σ).
Proof. intros H. unfold get_dict. by rewrite H. Qed.

(** Clones are read in their footprint only. *)
Lemma type_clone_mono memo memo' t t' :
  type_clone memo t t' -> memo ⊆ memo' -> type_clone memo' t t'.
Proof.
  unfold type_clone. intros H Hsub.
  destruct (pydantic_model_of t); [|done..].
  destruct H as (c' & Hc & ->). exists c'. split; [|done].
  by eapply lookup_weaken.
Qed.

Lemma clone_frame σ0 σ memo σ' memo' :
  memo ⊆ memo' ->
  (forall a b F, clone_of σ0 σ memo a b F ->
     (forall x g, x ∈ F -> fields σ !! x = Some g -> fields σ' !! x = Some g) ->
     clone_of σ0 σ' memo' a b F)
  /\ (forall o n F, sub_clones σ0 σ memo o n F ->
     (forall x g, x ∈ F -> fields σ !! x = Some g -> fields σ' !! x = Some g) ->
     sub_clones σ0 σ' memo' o n F)
  /\ (forall l l' F, clones_of σ0 σ memo l l' F ->
     (forall x g, x ∈ F -> fields σ !! x = Some g -> fields σ' !! x = Some g) ->
     clones_of σ0 σ' memo' l l' F)
  /\ (forall o n F, key_clone σ0 σ memo o n F ->
     (forall x g, x ∈ F -> fields σ !! x = Some g -> fields σ' !! x = Some g) ->
     key_clone σ0 σ' memo' o n F).
Proof.
  intros Hmemo. apply clone_mutind.
  - intros a b f f' Fs Fk Ha Hb Hcopied Htype _ IHs _ IHk Hagree.
    econstructor; [done| |done| | |].
    + apply Hagree; [set_solver|done].
    + by eapply type_clone_mono.
    + apply IHs. intros x g Hx. apply Hagree. set_solver.
    + apply IHk. intros x g Hx. apply Hagree. set_solver.
  - constructor.
  - constructor.
  - intros sub subs cloned F _ IH Hagree. constructor. by apply IH.
  - constructor.
  - intros a b F1 rest cloned F2 _ IH1 _ IH2 Hagree. constructor.
    + apply IH1. intros x g Hx. apply Hagree. set_solver.
    + apply IH2. intros x g Hx. apply Hagree. set_solver.
  - constructor.
  - intros k k' F _ IH Hagree. constructor. by apply IH.
Qed.

Lemma clone_of_frame σ0 σ memo σ' memo' a b F :
  clone_of σ0 σ memo a b F -> memo ⊆ memo' ->
  (forall x g, x ∈ F -> fields σ !! x = Some g -> fields σ' !! x = Some g) ->
  clone_of σ0 σ' memo' a b F.
Proof. intros H Hmemo. by apply (clone_frame σ0 σ memo σ' memo' Hmemo). Qed.

Lemma clones_of_frame σ0 σ memo σ' memo' l l' F :
  clones_of σ0 σ memo l l' F -> memo ⊆ memo' ->
  (forall x g, x ∈ F -> fields σ !! x = Some g -> fields σ' !! x = Some g) ->
  clones_of σ0 σ' memo' l l' F.
Proof. intros H Hmemo. by apply (clone_frame σ0 σ memo σ' memo' Hmemo). Qed.

Lemma sub_clones_frame σ0 σ memo σ' memo' o n F :
  sub_clones σ0 σ memo o n F -> memo ⊆ memo' ->
  (forall x g, x ∈ F -> fields σ !! x = Some g -> fields σ' !! x = Some g) ->
  sub_clones σ0 σ' memo' o n F.
Proof. intros H Hmemo. by apply (clone_frame σ0 σ memo σ' memo' Hmemo). Qed.

Lemma key_clone_frame σ0 σ memo σ' memo' o n F :
  key_clone σ0 σ memo o n F -> memo ⊆ memo' ->
  (forall x g, x ∈ F -> fields σ !! x = Some g -> fields σ' !! x = Some g) ->
  key_clone σ0 σ' memo' o n F.
Proof. intros H Hmemo. by apply (clone_frame σ0 σ memo σ' memo' Hmemo). Qed.

Lemma clone_of_head σ0 σ memo a b F : clone_of σ0 σ memo a b F -> b ∈ F.
Proof. destruct 1. set_solver. Qed.

Lemma class_clone_frame σ0 σ memo σ' memo' c F :
  class_clone σ0 σ memo c F -> memo ⊆ memo' ->
  (forall x g, x ∈ F -> fields σ !! x = Some g -> fields σ' !! x = Some g) ->
  (forall c' cls', memo !! c = Some c' -> classes σ !! c' = Some cls' ->
     classes σ' !! c' = Some cls') ->
  class_clone σ0 σ' memo' c F.
Proof.
  intros (cls & c' & cls' & Hc & Hmemo & Hnew & Hc' & Hname & Hfields)
    Hsub Hagree Hclass.
  exists cls, c', cls'. split; [done|]. split; [by eapply lookup_weaken|].
  split; [done|]. split; [by eapply Hclass|]. split; [done|].
  intros key l Hin. destruct (Hfields key l Hin) as (l' & Fl & Hget & Hclone & HFl).
  exists l', Fl. split; [done|]. split; [|done].
  eapply clone_of_frame; [done|done|]. intros x g Hx. apply Hagree. set_solver.
Qed.

Lemma completed_frame σ0 σ memo done σ' memo' :
  completed σ0 σ memo done -> memo ⊆ memo' ->
  fields σ ⊆ fields σ' -> classes σ ⊆ classes σ' ->
  completed σ0 σ' memo' done.
Proof.
  intros Hdone Hmemo Hfields Hclasses c F Hc.
  destruct (Hdone c F Hc) as [Hclone HF]. split.
  - eapply class_clone_frame; [done|done| |].
    + intros x g _ Hx. by eapply lookup_weaken.
    + intros c' cls' _ Hc'. by eapply lookup_weaken.
  - intros x Hx. apply HF in Hx. apply elem_of_dom in Hx as [g Hg].
    apply elem_of_dom. exists g. by eapply lookup_weaken.
Qed.

End CloneProperties.

(** The example library and the example declarations. *)
Section ExampleProperties.
Import Fields ExampleModels.

Lemma example_library_ok :
  library_ok ModelField_new create_model populate_validators.
Proof.
  split.
  - intros kw σ r σ'. unfold ModelField_new.
    assert (extends σ
              {| fields := <[fresh (dom (fields σ)) := constructed kw]> (fields σ);
                 classes := classes σ; dicts := dicts σ |}) as Hnew.
    { split; [|done]. simpl. apply insert_subseteq.
      apply not_elem_of_dom, is_fresh. }
    destruct (type_ (constructed kw)) as [c|n o|n];
      [by intros [= <- <-]|by intros [= <- <-]|].
    destruct (String.eqb n "Response"); [by intros [= <- <-]|].
    destruct (String.eqb n "Awaitable"); by intros [= <- <-].
  - intros kw σ l σ'. unfold ModelField_new.
    assert (fields σ !! fresh (dom (fields σ)) = None) as Hfresh
      by apply not_elem_of_dom, is_fresh.
    assert (forall v, kw_v1 kw = Some v -> type_ (constructed kw) = kw_type_ v)
      as Htype.
    { intros v Hv. unfold constructed. simpl. by rewrite Hv. }
    destruct (type_ (constructed kw)) as [c|n o|n] eqn:Ht.
    + intros [= <- <-]. split; [done|]. exists (constructed kw).
      split; [simpl; by rewrite lookup_insert_eq|]. split; [done|by rewrite Ht].
    + intros [= <- <-]. split; [done|]. exists (constructed kw).
      split; [simpl; by rewrite lookup_insert_eq|]. split; [done|by rewrite Ht].
    + destruct (String.eqb n "Response"); [done|].
      destruct (String.eqb n "Awaitable"); [done|].
      intros [= <- <-]. split; [done|]. exists (constructed kw).
      split; [simpl; by rewrite lookup_insert_eq|]. split; [done|by rewrite Ht].
  - intros n b σ r σ' [= <- <-]. split; [done|]. split; [|done]. simpl.
    apply insert_subseteq. apply not_elem_of_dom, is_fresh.
  - intros n b σ c σ' [= <- <-]. split; [apply not_elem_of_dom, is_fresh|].
    eexists. simpl. by rewrite lookup_insert_eq.
  - intros l σ r σ'. unfold populate_validators.
    destruct (fields σ !! l) as [f|] eqn:Hl; intros [= <- <-]; simpl.
    + split; [done|]. split; [done|]. split.
      * intros l' Hne. by rewrite lookup_insert_ne.
      * intros f' [= <-]. eexists. rewrite lookup_insert_eq. split; [done|].
        unfold same_declaration. simpl. tauto.
    + split; [done|]. split; [done|]. split; [done|]. intros f Hf. congruence.
Qed.

(** The declarations of [node_store], one by one. *)
Lemma node_store_fields l (f : @ModelField PyVal) :
  fields node_store !! l = Some f ->
  In (l, f) [(1%nat, declared "item" (TyModel Node) false 1 None None);
             (2%nat, declared "value" (TyOther "int") false 1 None None);
             (3%nat, declared "next" (TyModel Node) true 1 None None);
             (4%nat, declared "children" (TyModel Node) false 2
                       (Some [5%nat]) None);
             (5%nat, declared "_children" (TyModel Node) false 1 None None);
             (6%nat, declared "tags" (TyOther "int") false 4 None (Some 7%nat));
             (7%nat, declared "key_tags" (TyOther "str") false 1 None None)].
Proof.
  intros Hl. apply list_elem_of_In. by apply elem_of_list_to_map_2.
Qed.

Lemma node_store_classes c (cls : ModelClass) :
  classes node_store !! c = Some cls ->
  c = Node
  /\ cls = {| cls_name := "Node";
              cls_fields := [("value", 2%nat); ("next", 3%nat);
                             ("children", 4%nat); ("tags", 6%nat)] |}.
Proof.
  unfold node_store. simpl. intros [<- <-]%lookup_singleton_Some. done.
Qed.

Lemma node_store_closed : closed node_store.
Proof.
  split.
  - intros l f c Hl%node_store_fields Ht. simpl in Hl.
    assert (c = Node) as ->.
    { repeat (destruct Hl as [[= <- <-]|Hl]; [simpl in Ht; congruence|]). done. }
    by eexists.
  - intros l f subs l' Hl%node_store_fields Hsubs Hin. simpl in Hl.
    repeat (destruct Hl as [[= <- <-]|Hl]; [try discriminate Hsubs|]); [|done].
    injection Hsubs as <-. apply list_elem_of_singleton in Hin as ->.
    by eexists.
  - intros l f k Hl%node_store_fields Hkey. simpl in Hl.
    repeat (destruct Hl as [[= <- <-]|Hl]; [try discriminate Hkey|]); [|done].
    injection Hkey as <-. by eexists.
  - intros c cls key l [-> ->]%node_store_classes Hin. simpl in Hin.
    apply list_elem_of_In in Hin. simpl in Hin.
    repeat (destruct Hin as [[= <- <-]|Hin]; [by eexists|]). done.
  - intros c cls [-> ->]%node_store_classes. simpl.
    repeat (apply NoDup_cons; split; [set_solver|]). apply NoDup_nil_2.
Qed.

Lemma node_store_ranked : ranked node_rank 1 node_store.
Proof.
  split.
  - intros l f _. unfold node_rank. repeat case_decide; lia.
  - intros l f subs l' Hl%node_store_fields Hsubs Hin. simpl in Hl.
    repeat (destruct Hl as [[= <- <-]|Hl]; [try discriminate Hsubs|]); [|done].
    injection Hsubs as <-. apply list_elem_of_singleton in Hin as ->.
    vm_compute. lia.
  - intros l f k Hl%node_store_fields Hkey. simpl in Hl.
    repeat (destruct Hl as [[= <- <-]|Hl]; [try discriminate Hkey|]); [|done].
    injection Hkey as <-. vm_compute. lia.
Qed.

End ExampleProperties.

Section CloneV1.
Import Fields.
Context {PyVal : Type}.
Implicit Types (σ : @store PyVal) (f g : @ModelField PyVal)
  (memo : gmap classid classid) (done : gmap classid (gset loc)).

Variables Undefined BaseConfig empty_dict : PyVal.
Variable FieldInfo : option ty -> option PyVal -> option string -> PyVal.
Variable ModelField_new : @kwargs PyVal -> @store PyVal -> result loc * @store PyVal.
Variable create_model : string -> classid -> @store PyVal -> result classid * @store PyVal.
Variable populate_validators : loc -> @store PyVal -> result unit * @store PyVal.
Hypothesis library : library_ok ModelField_new create_model populate_validators.

Variable σ0 : @store PyVal.
Variable rank : loc -> nat.
Variable bound : nat.
Hypothesis closed0 : closed σ0.
Hypothesis ranked0 : ranked rank bound σ0.
Variable d : loc.

Local Abbreviation total :=
  (library_total ModelField_new create_model populate_validators).
Local Abbreviation runs := (runs ModelField_new create_model populate_validators).

(** The rules of [runs]. *)
Lemma runs_ret {A} (a : A) σ (Q : A -> store -> Prop) :
  Q a σ -> runs (mret a) σ Q.
Proof. intros H. by exists (Ret a), σ. Qed.

Lemma runs_bind {A B} (m : comp store A) (k : A -> comp store B) σ
    (Q : A -> store -> Prop) (Q' : B -> store -> Prop) :
  runs m σ Q ->
  (forall a σ1, Q a σ1 -> runs (k a) σ1 Q') ->
  runs (m ≫= k) σ Q'.
Proof.
  intros (r & σ1 & Hm & Hr) Hk. destruct r as [a|e].
  - destruct (Hk a σ1 Hr) as (r' & σ' & Hrun & Hr').
    exists r', σ'. split; [|done]. by rewrite (bind_ret _ _ _ _ _ Hm).
  - exists (Raise e), σ1. split; [|done]. by apply bind_raise.
Qed.

Lemma runs_weaken {A} (m : comp store A) σ (Q Q' : A -> store -> Prop) :
  runs m σ Q -> (forall a σ', Q a σ' -> Q' a σ') -> runs m σ Q'.
Proof.
  intros (r & σ' & Hm & Hr) HQ. exists r, σ'. split; [done|].
  destruct r; [by apply HQ|done].
Qed.

Lemma runs_get_field σ l f (Q : ModelField -> store -> Prop) :
  fields σ !! l = Some f -> Q f σ -> runs (get_field l) σ Q.
Proof. intros Hl HQ. exists (Ret f), σ. by rewrite (get_field_ret _ _ _ Hl). Qed.

Lemma runs_get_class σ c cls (Q : ModelClass -> store -> Prop) :
  classes σ !! c = Some cls -> Q cls σ -> runs (get_class c) σ Q.
Proof. intros Hc HQ. exists (Ret cls), σ. by rewrite (get_class_ret _ _ _ Hc). Qed.

Lemma runs_get_dict σ l memo (Q : gmap classid classid -> store -> Prop) :
  dicts σ !! l = Some memo -> Q memo σ -> runs (get_dict l) σ Q.
Proof. intros Hl HQ. exists (Ret memo), σ. by rewrite (get_dict_ret _ _ _ Hl). Qed.

Lemma runs_set_field σ l g (Q : unit -> store -> Prop) :
  Q () {| fields := <[l := g]> (fields σ); classes := classes σ;
          dicts := dicts σ |} ->
  runs (set_field l g) σ Q.
Proof. intros HQ. by eexists (Ret ()), _. Qed.

Lemma runs_create_model σ n b (Q : classid -> store -> Prop) :
  (forall c σ', create_model n b σ = (Ret c, σ') -> Q c σ') ->
  runs (call (create_model n b)) σ Q.
Proof.
  intros HQ.
  destruct (create_model n b σ) as [[c|e] σ'] eqn:E.
  - exists (Ret c), σ'. split; [unfold call; by rewrite E|]. by apply HQ.
  - exists (Raise e), σ'. split; [unfold call; by rewrite E|].
    intros (_ & Htotal & _).
    destruct (Htotal n b σ) as (c & σ'' & E'). congruence.
Qed.

Lemma runs_populate_validators σ l (Q : unit -> store -> Prop) :
  (forall σ', populate_validators l σ = (Ret (), σ') -> Q () σ') ->
  runs (call (populate_validators l)) σ Q.
Proof.
  intros HQ.
  destruct (populate_validators l σ) as [[[]|e] σ'] eqn:E.
  - exists (Ret ()), σ'. split; [unfold call; by rewrite E|]. by apply HQ.
  - exists (Raise e), σ'. split; [unfold call; by rewrite E|].
    intros (_ & _ & Htotal).
    destruct (Htotal l σ) as (σ'' & E'). congruence.
Qed.

Lemma runs_create_response_field V2 σ n t cv df rq mc fi al
    (Q : loc -> store -> Prop) :
  (forall l σ',
     ModelField_new
       (response_field_kwargs V2 empty_dict FieldInfo n t cv df rq mc fi al) σ
     = (Ret l, σ') -> Q l σ') ->
  runs (create_response_field V2 empty_dict FieldInfo ModelField_new
          n t cv df rq mc fi al) σ Q.
Proof.
  intros HQ.
  destruct (ModelField_new
              (response_field_kwargs V2 empty_dict FieldInfo n t cv df rq mc fi al)
              σ) as [[l|e] σ'] eqn:E.
  - exists (Ret l), σ'. split; [unfold create_response_field; by rewrite E|].
    by apply HQ.
  - assert (~ total) as Hno.
    { intros (Htotal & _).
      destruct (Htotal
                  (response_field_kwargs V2 empty_dict FieldInfo n t cv df rq mc
                     fi al) σ) as (l & σ'' & E').
      congruence. }
    unfold runs, create_response_field. rewrite E.
    destruct (is_RuntimeError e || is_PydanticSchemaGenerationError e);
      eexists _, _; (split; [reflexivity|]); exact Hno.
Qed.


(** The steps of a cloning. *)
Lemma grows_refl Y X σ memo done : grows Y X σ memo done σ memo done.
Proof.
  split; try done.
  - set_solver.
  - intros c F H1 H2. congruence.
Qed.

Lemma grows_trans Y1 X1 Y2 X2 σ memo done σ1 memo1 done1 σ2 memo2 done2 :
  grows Y1 X1 σ memo done σ1 memo1 done1 ->
  grows Y2 X2 σ1 memo1 done1 σ2 memo2 done2 ->
  grows (Y1 ∪ Y2) (X1 ∪ X2) σ memo done σ2 memo2 done2.
Proof.
  intros [Hf1 Hfd1 Hc1 Hcd1 Hm1 Hd1 Hdd1 Hn1] [Hf2 Hfd2 Hc2 Hcd2 Hm2 Hd2 Hdd2 Hn2].
  split.
  - intros x g Hx Hg. apply Hf2; [set_solver|]. apply Hf1; [set_solver|done].
  - set_solver.
  - intros x cls Hx Hcls. apply Hc2; [set_solver|]. apply Hc1; [set_solver|done].
  - set_solver.
  - by etrans.
  - by etrans.
  - rewrite Hdd2, Hdd1. apply subseteq_dom in Hm1, Hm2. apply set_eq. intros c.
    rewrite !elem_of_union, !elem_of_difference.
    destruct (decide (c ∈ dom memo)), (decide (c ∈ dom memo1)),
      (decide (c ∈ dom memo2)); set_solver.
  - intros c F Hc Hnone. destruct (done1 !! c) as [F'|] eqn:Hc'.
    + rewrite (lookup_weaken _ _ _ _ Hc' Hd2) in Hc. injection Hc as <-.
      by apply (Hn1 c).
    + pose proof (Hn2 c F Hc Hc'). set_solver.
Qed.

Lemma grows_weaken Y X Y' X' σ memo done σ' memo' done' :
  grows Y X σ memo done σ' memo' done' -> Y ⊆ Y' -> X ⊆ X' ->
  grows Y' X' σ memo done σ' memo' done'.
Proof.
  intros [Hf Hfd Hc Hcd Hm Hd Hdd Hn] HY HX. split; try done.
  - intros x g Hx. apply Hf. set_solver.
  - intros x cls Hx. apply Hc. set_solver.
Qed.

Lemma grows_strengthen Y X σ memo done σ' memo' done' :
  grows Y X σ memo done σ' memo' done' ->
  (forall y, y ∈ Y -> fields σ !! y = None) ->
  (forall x, x ∈ X -> classes σ !! x = None) ->
  grows ∅ ∅ σ memo done σ' memo' done'.
Proof.
  intros [Hf Hfd Hc Hcd Hm Hd Hdd Hn] HY HX. split; try done.
  - intros x g _ Hg. apply Hf; [|done]. intros Hx. apply HY in Hx. congruence.
  - intros x cls _ Hcls. apply Hc; [|done]. intros Hx. apply HX in Hx. congruence.
Qed.

Lemma grows_subseteq σ memo done σ' memo' done' :
  grows ∅ ∅ σ memo done σ' memo' done' ->
  fields σ ⊆ fields σ' /\ classes σ ⊆ classes σ'.
Proof.
  intros [Hf _ Hc _ _ _ _ _]. split; apply map_subseteq_spec.
  - intros x g. by apply Hf.
  - intros x cls. by apply Hc.
Qed.

Lemma grows_extends σ σ' memo done :
  extends σ σ' -> grows ∅ ∅ σ memo done σ' memo done.
Proof.
  intros (Hf & Hc & _). split; try done.
  - intros x g _ Hg. by eapply lookup_weaken.
  - by apply subseteq_dom.
  - intros x cls _ Hcls. by eapply lookup_weaken.
  - by apply subseteq_dom.
  - set_solver.
  - intros c F H1 H2. congruence.
Qed.

Lemma grows_set_field σ memo done l g :
  grows {[l]} ∅ σ memo done
    {| fields := <[l := g]> (fields σ); classes := classes σ; dicts := dicts σ |}
    memo done.
Proof.
  split; try done; simpl.
  - intros x g' Hx Hg. rewrite lookup_insert_ne; [done|set_solver].
  - rewrite dom_insert_L. set_solver.
  - set_solver.
  - intros c F H1 H2. congruence.
Qed.

Lemma grows_set_class σ memo done c cls :
  grows ∅ {[c]} σ memo done
    {| fields := fields σ; classes := <[c := cls]> (classes σ); dicts := dicts σ |}
    memo done.
Proof.
  split; try done; simpl.
  - intros x cls' Hx Hcls. rewrite lookup_insert_ne; [done|set_solver].
  - rewrite dom_insert_L. set_solver.
  - set_solver.
  - intros c0 F H1 H2. congruence.
Qed.

Lemma grows_populate σ σ' memo done l r :
  populate_validators l σ = (r, σ') -> grows {[l]} ∅ σ memo done σ' memo done.
Proof.
  intros (Hc & Hd & Hother & Hl)%(populate_only _ _ _ library).
  split; try done.
  - intros x g Hx Hg. rewrite Hother; [done|set_solver].
  - intros x [g Hg]%elem_of_dom. apply elem_of_dom.
    destruct (decide (x = l)) as [->|Hne].
    + destruct (Hl g Hg) as (g' & Hg' & _). eauto.
    + rewrite Hother by done. eauto.
  - intros x cls _. by rewrite Hc.
  - by rewrite Hc.
  - set_solver.
  - intros c F H1 H2. congruence.
Qed.

(** The state of the cloning after a step. *)
Lemma cloning_grows Y X σ memo done σ' :
  cloning σ0 d σ memo done ->
  grows Y X σ memo done σ' memo done ->
  dicts σ' !! d = Some memo ->
  (forall y, y ∈ Y -> fields σ0 !! y = None) ->
  (forall x, x ∈ X -> classes σ0 !! x = None) ->
  (forall c F, done !! c = Some F -> F ## Y) ->
  (forall c c', c ∈ dom done -> memo !! c = Some c' -> c' ∉ X) ->
  cloning σ0 d σ' memo done.
Proof.
  intros [Hf Hc Hd Hdone Hdom Hmemo] [Hgf Hgfd Hgc Hgcd _ _ _ _] Hd' HY HX
    Havoid Hclass.
  split; try done.
  - apply map_subseteq_spec. intros x g Hg. apply Hgf.
    + intros Hx. apply HY in Hx. congruence.
    + by eapply lookup_weaken.
  - apply map_subseteq_spec. intros x cls Hcls. apply Hgc.
    + intros Hx. apply HX in Hx. congruence.
    + by eapply lookup_weaken.
  - intros c F HcF. destruct (Hdone c F HcF) as [Hclone HF]. split; [|set_solver].
    eapply class_clone_frame; [done|done| |].
    + intros x g Hx. apply Hgf. specialize (Havoid c F HcF). set_solver.
    + intros c' cls' Hc' Hcls'. apply Hgc; [|done].
      apply (Hclass c); [|done]. apply elem_of_dom. eauto.
  - intros c c' Hc'. destruct (Hmemo c c' Hc') as [Hsome Hinj].
    split; [|done]. apply elem_of_dom. apply Hgcd. by apply elem_of_dom.
Qed.

Lemma unseen_mono memo memo' :
  memo ⊆ memo' -> (unseen σ0 memo' <= unseen σ0 memo)%nat.
Proof.
  intros Hsub. unfold unseen. apply subseteq_size.
  apply subseteq_dom in Hsub. set_solver.
Qed.

Lemma unseen_insert memo c c' :
  memo !! c = None -> is_Some (classes σ0 !! c) ->
  (unseen σ0 (<[c := c']> memo) < unseen σ0 memo)%nat.
Proof.
  intros Hnone Hsome. unfold unseen. apply subset_size.
  rewrite dom_insert_L. apply elem_of_dom in Hsome.
  apply not_elem_of_dom in Hnone. set_solver.
Qed.

Lemma runs_dict_setitem σ k v memo (Q : unit -> store -> Prop) :
  dicts σ !! d = Some memo ->
  Q () {| fields := fields σ; classes := classes σ;
          dicts := <[d := <[k := v]> memo]> (dicts σ) |} ->
  runs (dict_setitem d k v) σ Q.
Proof.
  intros Hd HQ. eexists (Ret ()), _. unfold dict_setitem. rewrite Hd. done.
Qed.

Lemma runs_fields_setitem σ c key l cls (Q : unit -> store -> Prop) :
  classes σ !! c = Some cls ->
  Q () {| fields := fields σ;
          classes := <[c := {| cls_name := cls_name cls;
                               cls_fields :=
                                 DictUpdate.dict_set key l (cls_fields cls) |}]>
                       (classes σ);
          dicts := dicts σ |} ->
  runs (fields_setitem c key l) σ Q.
Proof.
  intros Hc HQ. eexists (Ret ()), _. unfold fields_setitem. rewrite Hc. done.
Qed.

(** A class enters the memo. *)
Lemma cloning_dict_setitem σ memo done c c' :
  cloning σ0 d σ memo done ->
  memo !! c = None -> is_Some (classes σ !! c') ->
  (forall c2, memo !! c2 = Some c' -> False) ->
  cloning σ0 d
    {| fields := fields σ; classes := classes σ;
       dicts := <[d := <[c := c']> memo]> (dicts σ) |}
    (<[c := c']> memo) done.
Proof.
  intros [Hf Hc Hd Hdone Hdom Hmemo] Hnone Hsome Hnew.
  assert (memo ⊆ <[c := c']> memo) as Hsub by by apply insert_subseteq.
  split; simpl; try done.
  - by rewrite lookup_insert_eq.
  - eapply completed_frame; [apply Hdone|done|done|done].
  - rewrite dom_insert_L. set_solver.
  - intros c1 c1' H1. destruct (decide (c1 = c)) as [->|Hne].
    + rewrite lookup_insert_eq in H1. injection H1 as <-. split; [done|].
      intros c2 H2. destruct (decide (c2 = c)) as [->|Hne2]; [done|].
      rewrite lookup_insert_ne in H2 by done. by destruct (Hnew c2).
    + rewrite lookup_insert_ne in H1 by done.
      destruct (Hmemo c1 c1' H1) as [Hsome1 Hinj]. split; [done|].
      intros c2 H2. destruct (decide (c2 = c)) as [->|Hne2].
      * rewrite lookup_insert_eq in H2. injection H2 as <-. by destruct (Hnew c1).
      * rewrite lookup_insert_ne in H2 by done. by apply Hinj.
Qed.

(** A class of the memo is complete. *)
Lemma cloning_complete σ memo done c F :
  cloning σ0 d σ memo done ->
  class_clone σ0 σ memo c F -> F ⊆ dom (fields σ) ->
  cloning σ0 d σ memo (<[c := F]> done).
Proof.
  intros [Hf Hc Hd Hdone Hdom Hmemo] Hclone HF. split; try done.
  - intros c1 F1 H1. destruct (decide (c1 = c)) as [->|Hne].
    + rewrite lookup_insert_eq in H1. by injection H1 as <-.
    + rewrite lookup_insert_ne in H1 by done. by apply Hdone.
  - rewrite dom_insert_L. destruct Hclone as (_ & c' & _ & _ & Hc' & _).
    apply elem_of_dom_2 in Hc'. set_solver.
Qed.

Lemma grows_complete σ memo done σ2 σe memoe donee c c' Fc :
  fields σ ⊆ fields σ2 -> classes σ ⊆ classes σ2 ->
  memo !! c = None -> done !! c = None -> classes σ !! c' = None ->
  grows ∅ {[c']} σ2 (<[c := c']> memo) done σe memoe donee ->
  Fc ## dom (fields σ2) ->
  grows ∅ ∅ σ memo done σe memoe (<[c := Fc]> donee).
Proof.
  intros Hf Hc Hmemo Hdone Hnew [Hgf Hgfd Hgc Hgcd Hgm Hgd Hgdd Hgn] HFc.
  assert (donee !! c = None) as Hdonee.
  { apply not_elem_of_dom. rewrite Hgdd, dom_insert_L.
    apply not_elem_of_dom in Hdone. set_solver. }
  pose proof (subseteq_dom _ _ Hf) as Hfd.
  pose proof (subseteq_dom _ _ Hc) as Hcd.
  split.
  - intros x g _ Hx. apply Hgf; [set_solver|]. by eapply lookup_weaken.
  - set_solver.
  - intros x cls _ Hx. apply Hgc; [|by eapply lookup_weaken].
    intros ->%elem_of_singleton. congruence.
  - set_solver.
  - etrans; [|done]. by apply insert_subseteq.
  - etrans; [done|]. by apply insert_subseteq.
  - rewrite dom_insert_L, Hgdd, dom_insert_L.
    assert (c ∈ dom memoe) as Hin.
    { apply elem_of_dom. exists c'. eapply lookup_weaken; [|done].
      by rewrite lookup_insert_eq. }
    apply not_elem_of_dom in Hmemo. apply set_eq. intros x.
    rewrite !elem_of_union, !elem_of_difference, elem_of_union,
      elem_of_singleton.
    destruct (decide (x = c)) as [->|]; [tauto|]. tauto.
  - intros c1 F1 H1 H1'. destruct (decide (c1 = c)) as [->|Hne].
    + rewrite lookup_insert_eq in H1. injection H1 as <-. set_solver.
    + rewrite lookup_insert_ne in H1 by done.
      pose proof (Hgn c1 F1 H1 H1'). set_solver.
Qed.

(** The footprints of the complete classes keep away from a field that
    existed. *)
Lemma avoid_grows Y X σ memo done σ' memo' done' nf :
  (forall c F, done !! c = Some F -> nf ∉ F) ->
  grows Y X σ memo done σ' memo' done' ->
  nf ∈ dom (fields σ) ->
  forall c F, done' !! c = Some F -> nf ∉ F.
Proof.
  intros Havoid Hg Hnf c F Hc. destruct (done !! c) as [F'|] eqn:Hc'.
  - rewrite (lookup_weaken _ _ _ _ Hc' (grows_done _ _ _ _ _ _ _ _ Hg)) in Hc.
    injection Hc as <-. by eapply Havoid.
  - pose proof (grows_new _ _ _ _ _ _ _ _ Hg c F Hc Hc'). set_solver.
Qed.

Lemma not_done_grows Y X σ memo done σ' memo' done' c :
  grows Y X σ memo done σ' memo' done' ->
  c ∈ dom memo -> done !! c = None -> done' !! c = None.
Proof.
  intros Hg Hin Hnone. apply not_elem_of_dom.
  rewrite (grows_done_dom _ _ _ _ _ _ _ _ Hg).
  apply not_elem_of_dom in Hnone. set_solver.
Qed.

(** Reading an object that exists, before the rest of a block. *)
Lemma runs_read_field {B} σ l f (k : ModelField -> comp store B)
    (Q : B -> store -> Prop) :
  fields σ !! l = Some f -> runs (k f) σ Q -> runs (get_field l ≫= k) σ Q.
Proof.
  intros Hl Hk. eapply runs_bind.
  - apply (runs_get_field σ l f (fun f' σ' => f' = f /\ σ' = σ)); done.
  - by intros f' σ' [-> ->].
Qed.

Lemma runs_read_class {B} σ c cls (k : ModelClass -> comp store B)
    (Q : B -> store -> Prop) :
  classes σ !! c = Some cls -> runs (k cls) σ Q -> runs (get_class c ≫= k) σ Q.
Proof.
  intros Hc Hk. eapply runs_bind.
  - apply (runs_get_class σ c cls (fun cls' σ' => cls' = cls /\ σ' = σ)); done.
  - by intros cls' σ' [-> ->].
Qed.

Lemma runs_read_dict {B} σ l memo (k : gmap classid classid -> comp store B)
    (Q : B -> store -> Prop) :
  dicts σ !! l = Some memo -> runs (k memo) σ Q -> runs (get_dict l ≫= k) σ Q.
Proof.
  intros Hl Hk. eapply runs_bind.
  - apply (runs_get_dict σ l memo (fun memo' σ' => memo' = memo /\ σ' = σ)); done.
  - by intros memo' σ' [-> ->].
Qed.

Section Body.
(** The blocks of the function, for a recursive call [self] that clones
    every declaration within the budget [fuel]. *)
Variable self : loc -> option loc -> comp (@store PyVal) loc.
Variable fuel : nat.
Hypothesis self_runs :
  forall l σ memo done,
    cloning σ0 d σ memo done -> is_Some (fields σ0 !! l) ->
    (budget bound (unseen σ0 memo) (rank l) <= fuel)%nat ->
    runs (self l (Some d)) σ (cloned σ0 d σ memo done l).

(** The list comprehension over the sub-fields. *)
Lemma comprehension_runs rmax subs : forall σ memo done,
  cloning σ0 d σ memo done ->
  Forall (fun s => is_Some (fields σ0 !! s) /\ (rank s <= rmax)%nat) subs ->
  (budget bound (unseen σ0 memo) rmax <= fuel)%nat ->
  runs (comprehension (fun s => self s (Some d)) subs) σ
    (fun cl σ' =>
       exists memo' done' F,
         cloning σ0 d σ' memo' done' /\ grows ∅ ∅ σ memo done σ' memo' done'
         /\ F ## dom (fields σ) /\ F ⊆ dom (fields σ')
         /\ clones_of σ0 σ' memo' subs cl F).
Proof.
  induction subs as [|s subs IH]; intros σ memo done Hcl Hsubs Hfuel.
  - apply runs_ret. exists memo, done, ∅.
    split; [done|]. split; [apply grows_refl|]. split; [set_solver|].
    split; [set_solver|constructor].
  - apply Forall_cons in Hsubs as [[Hs Hrank] Hsubs]. cbn [comprehension].
    eapply runs_bind.
    { apply (self_runs s σ memo done Hcl Hs). unfold budget in *. lia. }
    intros b σ1 (memo1 & done1 & F1 & Hcl1 & Hg1 & Hnew1 & Hdom1 & Hclone1).
    eapply runs_bind.
    { apply (IH σ1 memo1 done1 Hcl1 Hsubs).
      pose proof (unseen_mono _ _ (grows_memo _ _ _ _ _ _ _ _ Hg1)).
      unfold budget in *. nia. }
    intros cl σ2 (memo2 & done2 & F2 & Hcl2 & Hg2 & Hnew2 & Hdom2 & Hclones2).
    apply runs_ret. exists memo2, done2, (F1 ∪ F2).
    split; [done|]. split.
    { eapply grows_weaken; [by eapply grows_trans|set_solver..]. }
    pose proof (grows_fields_dom _ _ _ _ _ _ _ _ Hg1).
    pose proof (grows_fields_dom _ _ _ _ _ _ _ _ Hg2).
    split; [set_solver|]. split; [set_solver|].
    constructor; [|done].
    eapply clone_of_frame; [done|by eapply grows_memo|].
    intros x g _. by eapply grows_fields.
Qed.


(** The loop over the fields of the class. *)
Lemma class_loop_runs c c' cls :
  classes σ0 !! c = Some cls -> classes σ0 !! c' = None ->
  forall todo seen σ memo done Fc,
    cls_fields cls = (seen ++ todo)%list ->
    cloning σ0 d σ memo done ->
    memo !! c = Some c' -> done !! c = None ->
    (S (unseen σ0 memo) * S bound <= fuel)%nat ->
    partial σ0 c c' seen σ memo Fc ->
    runs
      (for_each
         (fun f : loc =>
            cloned ← self f (Some d);
            fr ← get_field f;
            fields_setitem c' (name fr) cloned)
         todo.*2) σ
      (fun _ σ' =>
         exists memo' done' Fc',
           cloning σ0 d σ' memo' done'
           /\ grows ∅ {[c']} σ memo done σ' memo' done'
           /\ partial σ0 c c' (cls_fields cls) σ' memo' Fc'
           /\ Fc ⊆ Fc' /\ Fc' ∖ Fc ## dom (fields σ)).
Proof.
  intros Hcls Hnew todo.
  induction todo as [|[key a] todo IH];
    intros seen σ memo done Fc Hsplit Hcl Hmemo Hdone Hfuel Hpart.
  - apply runs_ret. exists memo, done, Fc. rewrite app_nil_r in Hsplit.
    split; [done|]. split; [apply grows_refl|]. rewrite Hsplit.
    split; [done|]. split; [done|set_solver].
  - assert ((key, a) ∈ cls_fields cls) as Hin.
    { rewrite Hsplit. apply elem_of_app. right. left. }
    destruct (closed_class_fields _ closed0 c cls key a Hcls Hin)
      as (fr & Hfr & Hname).
    pose proof (closed_class_names _ closed0 c cls Hcls) as Hnodup.
    rewrite fmap_cons. cbn [snd for_each].
    eapply runs_bind.
    { eapply runs_bind.
      - apply (self_runs a σ memo done Hcl); [by eexists|].
        pose proof (ranked_bound _ _ _ ranked0 a fr Hfr). unfold budget. lia.
      - intros l' σa (memoa & donea & F & Hcla & Hga & HF & HFdom & Hclone).
        eapply runs_read_field.
        { eapply lookup_weaken; [exact Hfr|apply (cloning_fields _ _ _ _ _ Hcla)]. }
        destruct Hpart as (cls_ & cls' & Hcls_ & Hc' & Hname' & HFc & Hseen).
        assert (cls_ = cls) as -> by congruence.
        eapply runs_fields_setitem.
        { eapply (grows_classes _ _ _ _ _ _ _ _ Hga); [set_solver|exact Hc']. }
        instantiate (1 := fun _ σb =>
          exists memoa donea F,
            cloning σ0 d σb memoa donea
            /\ grows ∅ {[c']} σ memo done σb memoa donea
            /\ partial σ0 c c' (seen ++ [(key, a)]) σb memoa (Fc ∪ F)
            /\ F ## dom (fields σ)).
        cbv beta. exists memoa, donea, F.
        pose proof (grows_memo _ _ _ _ _ _ _ _ Hga) as Hsub.
        assert (donea !! c = None) as Hdonea.
        { eapply not_done_grows; [exact Hga|by eapply elem_of_dom_2|done]. }
        split; [|split; [|split]].
        + eapply (cloning_grows ∅ {[c']}); [exact Hcla|apply grows_set_class|
            exact (cloning_dict _ _ _ _ _ Hcla)|set_solver| | |].
          * by intros x ->%elem_of_singleton.
          * set_solver.
          * intros c2 c2' Hc2 Hc2' ->%elem_of_singleton.
            destruct (cloning_memo _ _ _ _ _ Hcla c2 c' Hc2') as [_ Hinj].
            rewrite (Hinj c) in Hdonea by by eapply lookup_weaken.
            apply not_elem_of_dom in Hdonea. done.
        + eapply grows_weaken;
            [eapply grows_trans; [exact Hga|apply grows_set_class]|
             set_solver..].
        + exists cls, {| cls_name := cls_name cls';
                         cls_fields :=
                           DictUpdate.dict_set (name fr) l' (cls_fields cls') |}.
          split; [done|]. simpl. split; [by rewrite lookup_insert_eq|].
          split; [done|].
          pose proof (grows_fields_dom _ _ _ _ _ _ _ _ Hga).
          split; [set_solver|].
          intros k l [Hkl|Hkl%list_elem_of_singleton]%elem_of_app.
          * destruct (Hseen k l Hkl) as (l0 & Fl & Hget & Hcl0 & HFl).
            exists l0, Fl. rewrite dict_get_set. rewrite decide_False.
            2:{ rewrite Hname. intros <-. rewrite Hsplit, fmap_app, fmap_cons in Hnodup.
                apply NoDup_app in Hnodup as (_ & Hdisj & _).
                apply (Hdisj key); [|left].
                apply list_elem_of_fmap. by exists (key, l). }
            split; [done|]. split; [|set_solver].
            eapply clone_of_frame; [exact Hcl0|done|].
            intros x g _ Hx. simpl.
            by apply (grows_fields _ _ _ _ _ _ _ _ Hga).
          * injection Hkl as -> ->. exists l', F. rewrite dict_get_set.
            rewrite decide_True by done. split; [done|]. split; [|set_solver].
            eapply clone_of_frame; [exact Hclone|done|]. by intros x g _ Hx.
        + done. }
    intros [] σb (memoa & donea & F & Hclb & Hgb & Hpartb & HF).
    pose proof (grows_memo _ _ _ _ _ _ _ _ Hgb) as Hsub.
    eapply runs_weaken.
    { apply (IH (seen ++ [(key, a)])%list σb memoa donea (Fc ∪ F)).
      - by rewrite <- app_assoc.
      - done.
      - by eapply lookup_weaken.
      - eapply not_done_grows; [exact Hgb|by eapply elem_of_dom_2|done].
      - pose proof (unseen_mono _ _ Hsub). nia.
      - done. }
    intros [] σe (memoe & donee & Fc' & Hcle & Hge & Hparte & Hincl & Hfresh).
    exists memoe, donee, Fc'. split; [done|]. split.
    { eapply grows_weaken; [eapply grows_trans; [exact Hgb|exact Hge]|set_solver..]. }
    split; [done|]. split; [set_solver|].
    pose proof (grows_fields_dom _ _ _ _ _ _ _ _ Hgb).
    intros x Hx Hx'. apply elem_of_difference in Hx as [Hx Hnx].
    destruct (decide (x ∈ F)) as [HxF|HxF]; [set_solver|].
    apply (Hfresh x); [set_solver|set_solver].
Qed.

(** The block that clones the type, for a model class. *)
Lemma clone_model_type_runs σ memo done c :
  cloning σ0 d σ memo done -> is_Some (classes σ0 !! c) ->
  (unseen σ0 memo * S bound <= fuel)%nat ->
  runs (clone_model_type create_model self d c) σ
    (fun t σ' =>
       exists memo' done' c',
         t = TyModel c' /\ memo' !! c = Some c'
         /\ cloning σ0 d σ' memo' done'
         /\ grows ∅ ∅ σ memo done σ' memo' done').
Proof.
  intros Hcl [cls Hcls] Hfuel. unfold clone_model_type.
  eapply runs_read_dict; [exact (cloning_dict _ _ _ _ _ Hcl)|].
  destruct (memo !! c) as [c'|] eqn:Hmemo.
  { apply runs_ret. exists memo, done, c'.
    split; [done|]. split; [done|]. split; [done|apply grows_refl]. }
  eapply runs_read_class.
  { eapply lookup_weaken; [exact Hcls|exact (cloning_classes _ _ _ _ _ Hcl)]. }
  eapply runs_bind.
  { apply (runs_create_model σ (cls_name cls) c
             (fun c' σ1 =>
                extends σ σ1 /\ classes σ !! c' = None
                /\ exists cls1, classes σ1 !! c' = Some cls1
                                /\ cls_name cls1 = cls_name cls)).
    intros c' σ1 E. split; [exact (model_extends _ _ _ library _ _ _ _ _ E)|].
    exact (model_fresh _ _ _ library _ _ _ _ _ E). }
  intros c' σ1 (Hext & Hfresh & cls1 & Hc1 & Hname1).
  assert (classes σ0 !! c' = None) as Hnew.
  { destruct (classes σ0 !! c') as [x|] eqn:E; [|done].
    rewrite (lookup_weaken _ _ _ _ E (cloning_classes _ _ _ _ _ Hcl)) in Hfresh.
    done. }
  assert (cloning σ0 d σ1 memo done) as Hcl1.
  { eapply (cloning_grows ∅ ∅); [exact Hcl|by apply grows_extends| |set_solver..].
    destruct Hext as (_ & _ & ->). exact (cloning_dict _ _ _ _ _ Hcl). }
  assert (done !! c = None) as Hdone.
  { apply not_elem_of_dom. intros Hin.
    apply (cloning_done_dom _ _ _ _ _ Hcl) in Hin.
    by apply not_elem_of_dom in Hmemo. }
  pose (σ2 := {| fields := fields σ1; classes := classes σ1;
                 dicts := <[d := <[c := c']> memo]> (dicts σ1) |}).
  assert (cloning σ0 d σ2 (<[c := c']> memo) done) as Hcl2.
  { apply cloning_dict_setitem; [done|done|by eexists|].
    intros c2 Hc2. destruct (cloning_memo _ _ _ _ _ Hcl c2 c' Hc2) as [[x Hx] _].
    congruence. }
  eapply runs_bind.
  { apply (runs_dict_setitem σ1 c c' memo (fun _ σ' => σ' = σ2));
      [exact (cloning_dict _ _ _ _ _ Hcl1)|done]. }
  intros [] ? ->.
  eapply runs_bind.
  { apply (class_loop_runs c c' cls Hcls Hnew (cls_fields cls) [] σ2
             (<[c := c']> memo) done ∅); try done.
    - by rewrite lookup_insert_eq.
    - assert (unseen σ0 (<[c := c']> memo) < unseen σ0 memo)%nat
        by (apply unseen_insert; [done|by eexists]).
      nia.
    - exists cls, cls1. split; [done|]. split; [done|]. split; [done|].
      split; [set_solver|]. intros key l Hin. by apply elem_of_nil in Hin. }
  intros [] σe (memoe & donee & Fc & Hcle & Hge & Hpart & _ & HFc).
  apply runs_ret. exists memoe, (<[c := Fc]> donee), c'.
  pose proof (grows_memo _ _ _ _ _ _ _ _ Hge) as Hsub.
  assert (memoe !! c = Some c') as Hmemoe.
  { eapply lookup_weaken; [|exact Hsub]. by rewrite lookup_insert_eq. }
  split; [done|]. split; [done|].
  destruct Hpart as (cls_ & cls' & Hcls_ & Hc' & Hname' & HFcdom & Hall).
  assert (cls_ = cls) as -> by congruence.
  split.
  - apply cloning_complete; [done| |done].
    exists cls, c', cls'. split; [done|]. split; [done|]. split; [done|].
    split; [done|]. split; done.
  - destruct Hext as (Hf & Hc & _).
    eapply (grows_complete σ memo done σ2); try done.
    set_solver.
Qed.

Lemma building_write nf h h' σ memo done :
  building σ0 d nf h σ memo done ->
  building σ0 d nf h'
    {| fields := <[nf := h']> (fields σ); classes := classes σ;
       dicts := dicts σ |} memo done.
Proof.
  intros (Hcl & Hnew & Hnf & Havoid). split; [|split; [done|split; [|done]]].
  - eapply (cloning_grows {[nf]} ∅); [exact Hcl|apply grows_set_field|
      exact (cloning_dict _ _ _ _ _ Hcl)| |set_solver| |set_solver].
    + by intros y ->%elem_of_singleton.
    + intros c F HF. specialize (Havoid c F HF). set_solver.
  - simpl. by rewrite lookup_insert_eq.
Qed.

Lemma building_step nf h σ memo done σ' memo' done' :
  building σ0 d nf h σ memo done ->
  cloning σ0 d σ' memo' done' -> grows ∅ ∅ σ memo done σ' memo' done' ->
  building σ0 d nf h σ' memo' done'.
Proof.
  intros (Hcl & Hnew & Hnf & Havoid) Hcl' Hg.
  split; [done|]. split; [done|]. split.
  - by apply (grows_fields _ _ _ _ _ _ _ _ Hg).
  - eapply avoid_grows; [exact Havoid|exact Hg|by eapply elem_of_dom_2].
Qed.

Lemma runs_assign copy σ l nf f h (Q : unit -> store -> Prop) :
  fields σ !! l = Some f -> fields σ !! nf = Some h ->
  Q () {| fields := <[nf := copy f h]> (fields σ); classes := classes σ;
          dicts := dicts σ |} ->
  runs (assign copy l nf) σ Q.
Proof.
  intros Hl Hnf HQ. unfold assign.
  eapply runs_read_field; [exact Hl|].
  eapply runs_read_field; [exact Hnf|]. by apply runs_set_field.
Qed.

Lemma runs_update change σ nf h (Q : unit -> store -> Prop) :
  fields σ !! nf = Some h ->
  Q () {| fields := <[nf := change h]> (fields σ); classes := classes σ;
          dicts := dicts σ |} ->
  runs (update change nf) σ Q.
Proof.
  intros Hnf HQ. unfold update.
  eapply runs_read_field; [exact Hnf|]. by apply runs_set_field.
Qed.

(** The block of the sub-fields. *)
Lemma clone_sub_fields_runs l f nf h σ memo done :
  fields σ0 !! l = Some f -> building σ0 d nf h σ memo done ->
  (unseen σ0 memo * S bound + rank l <= fuel)%nat ->
  runs (clone_sub_fields self d l nf) σ
    (fun _ σ' =>
       exists h' memo' done' Fs,
         building σ0 d nf h' σ' memo' done'
         /\ grows {[nf]} ∅ σ memo done σ' memo' done'
         /\ (h' = h \/ exists cl, h' = with_sub_fields cl h)
         /\ sub_clones σ0 σ' memo' (sub_fields f) (sub_fields h') Fs
         /\ Fs ## dom (fields σ) /\ Fs ⊆ dom (fields σ')).
Proof.
  intros Hl Hb Hfuel. pose proof Hb as (Hcl & Hnew & Hnf & Havoid).
  unfold clone_sub_fields.
  eapply runs_read_field.
  { eapply lookup_weaken; [exact Hl|exact (cloning_fields _ _ _ _ _ Hcl)]. }
  destruct (sub_fields f) as [[|sub subs]|] eqn:Hsubs.
  - apply runs_ret. exists h, memo, done, ∅. split; [done|].
    split; [apply grows_refl|]. split; [by left|].
    split; [constructor|]. split; set_solver.
  - eapply runs_bind.
    { apply (comprehension_runs (pred (rank l)) (sub :: subs) σ memo done Hcl).
      - apply Forall_forall. intros s Hs. split.
        + exact (closed_sub_fields _ closed0 l f _ s Hl Hsubs Hs).
        + pose proof (ranked_sub_fields _ _ _ ranked0 l f _ s Hl Hsubs Hs). lia.
      - assert (sub ∈ sub :: subs) as Hs by left.
        pose proof (ranked_sub_fields _ _ _ ranked0 l f _ sub Hl Hsubs Hs).
        unfold budget. lia. }
    intros cl σ1 (memo1 & done1 & F & Hcl1 & Hg1 & HF & HFdom & Hclones).
    pose proof (building_step _ _ _ _ _ _ _ _ Hb Hcl1 Hg1) as Hb1.
    eapply runs_update; [exact (proj1 (proj2 (proj2 Hb1)))|].
    exists (with_sub_fields cl h), memo1, done1, F.
    split; [exact (building_write _ _ _ _ _ _ Hb1)|]. split.
    { eapply grows_weaken;
        [eapply grows_trans; [exact Hg1|apply grows_set_field]|set_solver..]. }
    split; [right; by exists cl|]. simpl.
    assert (nf ∉ F) as HnfF.
    { apply elem_of_dom_2 in Hnf. set_solver. }
    split; [|split; [done|]].
    + constructor. eapply clones_of_frame; [exact Hclones|done|].
      intros x g Hx Hg. simpl. rewrite lookup_insert_ne; [done|]. by intros <-.
    + rewrite dom_insert_L. set_solver.
  - apply runs_ret. exists h, memo, done, ∅. split; [done|].
    split; [apply grows_refl|]. split; [by left|].
    split; [constructor|]. split; set_solver.
Qed.

(** The block of the key field. *)
Lemma clone_key_field_runs l f nf h σ memo done :
  fields σ0 !! l = Some f -> building σ0 d nf h σ memo done ->
  (unseen σ0 memo * S bound + rank l <= fuel)%nat ->
  runs (clone_key_field self d l nf) σ
    (fun _ σ' =>
       exists h' memo' done' Fk,
         building σ0 d nf h' σ' memo' done'
         /\ grows {[nf]} ∅ σ memo done σ' memo' done'
         /\ (h' = h \/ exists k, h' = with_key_field k h)
         /\ key_clone σ0 σ' memo' (key_field f) (key_field h') Fk
         /\ Fk ## dom (fields σ) /\ Fk ⊆ dom (fields σ')).
Proof.
  intros Hl Hb Hfuel. pose proof Hb as (Hcl & Hnew & Hnf & Havoid).
  unfold clone_key_field.
  eapply runs_read_field.
  { eapply lookup_weaken; [exact Hl|exact (cloning_fields _ _ _ _ _ Hcl)]. }
  destruct (key_field f) as [key|] eqn:Hkey.
  - eapply runs_bind.
    { apply (self_runs key σ memo done Hcl).
      - exact (closed_key_field _ closed0 l f key Hl Hkey).
      - pose proof (ranked_key_field _ _ _ ranked0 l f key Hl Hkey).
        unfold budget. lia. }
    intros k σ1 (memo1 & done1 & F & Hcl1 & Hg1 & HF & HFdom & Hclone).
    pose proof (building_step _ _ _ _ _ _ _ _ Hb Hcl1 Hg1) as Hb1.
    eapply runs_update; [exact (proj1 (proj2 (proj2 Hb1)))|].
    exists (with_key_field k h), memo1, done1, F.
    split; [exact (building_write _ _ _ _ _ _ Hb1)|]. split.
    { eapply grows_weaken;
        [eapply grows_trans; [exact Hg1|apply grows_set_field]|set_solver..]. }
    split; [right; by exists k|]. simpl.
    assert (nf ∉ F) as HnfF.
    { apply elem_of_dom_2 in Hnf. set_solver. }
    split; [|split; [done|]].
    + constructor. eapply clone_of_frame; [exact Hclone|done|].
      intros x g Hx Hg. simpl. rewrite lookup_insert_ne; [done|]. by intros <-.
    + rewrite dom_insert_L. set_solver.
  - apply runs_ret. exists h, memo, done, ∅. split; [done|].
    split; [apply grows_refl|]. split; [by left|].
    split; [constructor|]. split; set_solver.
Qed.

(** The body of the function, for a dictionary [cloned_types] that is
    given. *)
Lemma clone_field_runs l σ memo done :
  cloning σ0 d σ memo done -> is_Some (fields σ0 !! l) ->
  (budget bound (unseen σ0 memo) (rank l) <= S fuel)%nat ->
  runs
    (clone_field false Undefined BaseConfig empty_dict FieldInfo ModelField_new
       create_model populate_validators self l (Some d)) σ
    (cloned σ0 d σ memo done l).
Proof.
  intros Hcl [f Hl] Hfuel. unfold budget in Hfuel. unfold clone_field.
  eapply runs_bind; [apply (runs_ret d σ (fun x σ' => x = d /\ σ' = σ)); done|].
  intros ? ? [-> ->].
  eapply runs_read_field.
  { eapply lookup_weaken; [exact Hl|exact (cloning_fields _ _ _ _ _ Hcl)]. }
  (* the type *)
  eapply (runs_bind _ _ _
            (fun t σ1 =>
               exists memo1 done1,
                 cloning σ0 d σ1 memo1 done1
                 /\ grows ∅ ∅ σ memo done σ1 memo1 done1
                 /\ type_clone memo1 (type_ f) t)).
  { destruct (pydantic_model_of (type_ f)) as [c|n o|n] eqn:Ht.
    - eapply runs_weaken.
      + apply (clone_model_type_runs σ memo done c Hcl).
        * exact (closed_type _ closed0 l f c Hl Ht).
        * lia.
      + intros t σ1 (memo1 & done1 & c' & -> & Hc' & Hcl1 & Hg1).
        exists memo1, done1. split; [done|]. split; [done|].
        unfold type_clone. rewrite Ht. by exists c'.
    - apply runs_ret. exists memo, done. split; [done|].
      split; [apply grows_refl|]. unfold type_clone. by rewrite Ht.
    - apply runs_ret. exists memo, done. split; [done|].
      split; [apply grows_refl|]. unfold type_clone. by rewrite Ht. }
  intros t σ1 (memo1 & done1 & Hcl1 & Hg1 & Htype).
  pose proof (unseen_mono _ _ (grows_memo _ _ _ _ _ _ _ _ Hg1)) as Hun1.
  eapply runs_read_field.
  { eapply lookup_weaken; [exact Hl|exact (cloning_fields _ _ _ _ _ Hcl1)]. }
  (* the new field *)
  eapply (runs_bind _ _ _
            (fun nf σ2 =>
               extends σ1 σ2 /\ fields σ1 !! nf = None
               /\ exists g0, fields σ2 !! nf = Some g0
                             /\ name g0 = name f /\ type_ g0 = t)).
  { apply runs_create_response_field. intros nf σ2 E.
    split; [exact (new_extends _ _ _ library _ _ _ _ E)|].
    destruct (new_fresh _ _ _ library _ _ _ _ E) as (Hnone & g0 & Hg0 & Hn & Ht).
    split; [done|]. exists g0. split; [done|]. split; [exact Hn|].
    exact (Ht _ eq_refl). }
  intros nf σ2 (Hext & Hfresh & g0 & Hg0 & Hname0 & Htype0). subst t.
  assert (fields σ0 !! nf = None) as Hnew.
  { destruct (fields σ0 !! nf) as [x|] eqn:E; [|done].
    rewrite (lookup_weaken _ _ _ _ E (cloning_fields _ _ _ _ _ Hcl1)) in Hfresh.
    done. }
  assert (building σ0 d nf g0 σ2 memo1 done1) as Hb2.
  { split; [|split; [done|split; [done|]]].
    - eapply (cloning_grows ∅ ∅); [exact Hcl1|by apply grows_extends| |set_solver..].
      destruct Hext as (_ & _ & ->). exact (cloning_dict _ _ _ _ _ Hcl1).
    - intros c F HF HnfF.
      destruct (cloning_done _ _ _ _ _ Hcl1 c F HF) as [_ Hdom].
      apply Hdom in HnfF. by apply not_elem_of_dom in Hfresh. }
  pose proof (building_write nf g0 (copy_first f g0) _ _ _ Hb2) as Hb3.
  set (σ3 := {| fields := <[nf := copy_first f g0]> (fields σ2);
                classes := classes σ2; dicts := dicts σ2 |}) in Hb3.
  eapply (runs_bind _ _ _ (fun _ σ' => σ' = σ3)).
  { eapply runs_assign; [|exact Hg0|done].
    eapply lookup_weaken; [exact Hl|]. destruct Hb2 as [Hcl2 _].
    exact (cloning_fields _ _ _ _ _ Hcl2). }
  intros [] ? ->.
  (* the sub-fields and the key field *)
  eapply runs_bind.
  { apply (clone_sub_fields_runs l f nf _ σ3 memo1 done1 Hl Hb3). nia. }
  intros [] σ4 (h4 & memo4 & done4 & Fs & Hb4 & Hg4 & Hh4 & Hsubs & HFs & HFsdom).
  pose proof (unseen_mono _ _ (grows_memo _ _ _ _ _ _ _ _ Hg4)) as Hun4.
  eapply runs_bind.
  { apply (clone_key_field_runs l f nf _ σ4 memo4 done4 Hl Hb4). nia. }
  intros [] σ5 (h5 & memo5 & done5 & Fk & Hb5 & Hg5 & Hh5 & Hkey & HFk & HFkdom).
  pose proof (building_write nf h5 (copy_last f h5) _ _ _ Hb5) as Hb6.
  set (σ6 := {| fields := <[nf := copy_last f h5]> (fields σ5);
                classes := classes σ5; dicts := dicts σ5 |}) in Hb6.
  eapply (runs_bind _ _ _ (fun _ σ' => σ' = σ6)).
  { destruct Hb5 as (Hcl5 & _ & Hnf5 & _).
    eapply runs_assign; [|exact Hnf5|done].
    eapply lookup_weaken; [exact Hl|exact (cloning_fields _ _ _ _ _ Hcl5)]. }
  intros [] ? ->.
  eapply (runs_bind _ _ _
            (fun _ σ7 => populate_validators nf σ6 = (Ret (), σ7))).
  { by apply runs_populate_validators. }
  intros [] σ7 E. apply runs_ret.
  destruct Hb6 as (Hcl6 & _ & Hnf6 & Havoid6).
  pose proof (grows_populate σ6 σ7 memo5 done5 nf _ E) as Hg7.
  destruct (populate_only _ _ _ library _ _ _ _ E) as (Hc7 & Hd7 & Hother7 & Hnf7).
  destruct (Hnf7 _ Hnf6) as (h7 & Hh7 & Hsame).
  (* the chain of states *)
  assert (grows {[nf]} ∅ σ1 memo1 done1 σ7 memo5 done5) as Hg17.
  { eapply grows_weaken.
    - eapply grows_trans; [apply (grows_extends σ1 σ2 memo1 done1 Hext)|].
      eapply grows_trans; [apply (grows_set_field σ2 memo1 done1 nf (copy_first f g0))|].
      eapply grows_trans; [exact Hg4|].
      eapply grows_trans; [exact Hg5|].
      eapply grows_trans; [apply (grows_set_field σ5 memo5 done5 nf (copy_last f h5))|].
      exact Hg7.
    - set_solver.
    - set_solver. }
  assert (grows ∅ ∅ σ memo done σ7 memo5 done5) as Hg07.
  { assert (grows ∅ ∅ σ1 memo1 done1 σ7 memo5 done5) as Hg17'.
    { eapply grows_strengthen; [exact Hg17| |set_solver].
      by intros y ->%elem_of_singleton. }
    eapply grows_weaken; [exact (grows_trans _ _ _ _ _ _ _ _ _ _ _ _ _ Hg1 Hg17')|
                          set_solver..]. }
  pose proof (grows_fields_dom _ _ _ _ _ _ _ _ Hg1) as Hd01.
  pose proof (subseteq_dom _ _ (proj1 Hext)) as Hd12.
  assert (dom (fields σ2) ⊆ dom (fields σ3)) as Hd23.
  { unfold σ3. simpl. rewrite dom_insert_L. set_solver. }
  pose proof (grows_fields_dom _ _ _ _ _ _ _ _ Hg4) as Hd34.
  pose proof (grows_fields_dom _ _ _ _ _ _ _ _ Hg5) as Hd45.
  assert (dom (fields σ5) ⊆ dom (fields σ6)) as Hd56.
  { unfold σ6. simpl. rewrite dom_insert_L. set_solver. }
  pose proof (grows_fields_dom _ _ _ _ _ _ _ _ Hg7) as Hd67.
  assert (nf ∈ dom (fields σ3)) as Hnf3.
  { unfold σ3. simpl. rewrite dom_insert_L. set_solver. }
  assert (nf ∉ dom (fields σ1)) as Hnf1 by by apply not_elem_of_dom.
  assert (nf ∉ Fs) as HnfFs by (clear -HFs Hnf3; set_solver).
  assert (nf ∉ Fk) as HnfFk by (clear -HFk Hnf3 Hd34; set_solver).
  exists memo5, done5, ({[nf]} ∪ Fs ∪ Fk).
  split.
  { eapply (cloning_grows {[nf]} ∅); [exact Hcl6|exact Hg7| | |set_solver| |set_solver].
    - rewrite Hd7. exact (cloning_dict _ _ _ _ _ Hcl6).
    - by intros y ->%elem_of_singleton.
    - intros c F HF. specialize (Havoid6 c F HF). set_solver. }
  split; [exact Hg07|].
  split.
  { clear -Hd01 Hd12 Hd23 Hd34 HFs HFk Hnf1. set_solver. }
  split.
  { apply elem_of_dom_2 in Hh7.
    clear -Hh7 HFsdom HFkdom Hd45 Hd56 Hd67. set_solver. }
  (* the clone *)
  assert (forall x g, x ≠ nf -> fields σ5 !! x = Some g -> fields σ7 !! x = Some g)
    as H57.
  { intros x g Hx Hg. rewrite Hother7 by done. unfold σ6. simpl.
    by rewrite lookup_insert_ne. }
  pose proof (grows_memo _ _ _ _ _ _ _ _ Hg5) as Hm45.
  pose proof (grows_memo _ _ _ _ _ _ _ _ Hg4) as Hm14.
  destruct Hsame as (S1 & S2 & S3 & S4 & S5 & S6 & S7 & S8 & S9 & S10 & S11
                     & S12 & S13 & S14).
  assert (sub_fields h5 = sub_fields h4) as Hs54.
  { destruct Hh5 as [->|[k ->]]; done. }
  econstructor; [exact Hl|exact Hh7| | | |].
  - pose (first_copied := fun h : ModelField =>
            name h = name f /\ has_alias h = has_alias f /\ alias h = alias f
            /\ class_validators h = class_validators f
            /\ default h = default f /\ required h = required f
            /\ model_config h = model_config f /\ field_info h = field_info f
            /\ allow_none h = allow_none f).
    assert (first_copied (copy_first f g0)) as Hc3.
    { unfold first_copied. simpl. by rewrite Hname0. }
    assert (first_copied h4) as Hc4.
    { destruct Hh4 as [->|[cl ->]]; exact Hc3. }
    assert (first_copied h5) as Hc5.
    { destruct Hh5 as [->|[k ->]]; exact Hc4. }
    destruct Hc5 as (C1 & C2 & C3 & C4 & C5 & C6 & C7 & C8 & C9).
    unfold copied. rewrite S1, S3, S4, S5, S6, S7, S8, S9, S10, S13, S14.
    simpl. by rewrite C1, C2, C3, C4, C5, C6, C7, C8, C9.
  - rewrite S2. simpl.
    assert (type_ h5 = type_ g0) as ->.
    { destruct Hh5 as [->|[k ->]]; destruct Hh4 as [->|[cl ->]]; done. }
    eapply type_clone_mono; [exact Htype|]. by etrans.
  - rewrite S11. simpl. rewrite Hs54.
    eapply sub_clones_frame; [exact Hsubs|done|].
    intros x g Hx Hg. apply H57; [by intros ->|].
    apply (grows_fields _ _ _ _ _ _ _ _ Hg5); [|done].
    intros ->%elem_of_singleton. done.
  - rewrite S12. simpl.
    eapply key_clone_frame; [exact Hkey|done|].
    intros x g Hx Hg. apply H57; [by intros ->|done].
Qed.

End Body.

(** With Pydantic v1 the function clones every declaration, within the
    budget. *)
Lemma create_cloned_field_runs fuel : forall l σ memo done,
  cloning σ0 d σ memo done -> is_Some (fields σ0 !! l) ->
  (budget bound (unseen σ0 memo) (rank l) <= fuel)%nat ->
  runs
    (create_cloned_field false Undefined BaseConfig empty_dict FieldInfo
       ModelField_new create_model populate_validators fuel l (Some d)) σ
    (cloned σ0 d σ memo done l).
Proof.
  induction fuel as [|fuel IH]; intros l σ memo done Hcl Hl Hfuel.
  - unfold budget in Hfuel. lia.
  - cbn [create_cloned_field]. eapply clone_field_runs; [exact IH|done..].
Qed.

End CloneV1.

Section CloneTop.
Import Fields.
Context {PyVal : Type}.
Implicit Types (σ : @store PyVal) (f g : @ModelField PyVal)
  (memo : gmap classid classid) (done : gmap classid (gset loc)).

Variables Undefined BaseConfig empty_dict : PyVal.
Variable FieldInfo : option ty -> option PyVal -> option string -> PyVal.
Variable ModelField_new : @kwargs PyVal -> @store PyVal -> result loc * @store PyVal.
Variable create_model : string -> classid -> @store PyVal -> result classid * @store PyVal.
Variable populate_validators : loc -> @store PyVal -> result unit * @store PyVal.
Hypothesis library : library_ok ModelField_new create_model populate_validators.

Local Abbreviation create_cloned_field' V2 :=
  (create_cloned_field V2 Undefined BaseConfig empty_dict FieldInfo
     ModelField_new create_model populate_validators).

(** With Pydantic v2 the function returns its argument. *)
Lemma create_cloned_field_v2 fuel l cloned_types σ :
  create_cloned_field' true (S fuel) l cloned_types σ = Some (Ret l, σ).
Proof. reflexivity. Qed.

(** Without a dictionary the function makes one, and goes on as with
    it. *)
Lemma create_cloned_field_new_dict fuel l σ :
  create_cloned_field' false (S fuel) l None σ
  = create_cloned_field' false (S fuel) l (Some (fresh (dom (dicts σ))))
      {| fields := fields σ; classes := classes σ;
         dicts := <[fresh (dom (dicts σ)) := ∅]> (dicts σ) |}.
Proof. reflexivity. Qed.

(** A call for a declaration of a closed store, without a dictionary:
    the function returns a clone made of new objects, with new classes
    for the model classes it met; what existed is as it was. *)
Lemma create_cloned_field_top σ rank bound l fuel :
  closed σ -> ranked rank bound σ -> is_Some (fields σ !! l) ->
  (budget bound (size (dom (classes σ))) (rank l) <= fuel)%nat ->
  runs ModelField_new create_model populate_validators
    (create_cloned_field' false fuel l None) σ
    (fun l' σ' =>
       exists memo done F,
         clone_of σ σ' memo l l' F
         /\ F ## dom (fields σ) /\ F ⊆ dom (fields σ')
         /\ fields σ ⊆ fields σ' /\ classes σ ⊆ classes σ'
         /\ completed σ σ' memo done /\ dom done = dom memo
         /\ (forall c F', done !! c = Some F' -> F' ## dom (fields σ))
         /\ memo_ok σ' memo).
Proof.
  intros Hclosed Hranked Hl Hfuel.
  destruct fuel as [|fuel]; [unfold budget in Hfuel; lia|].
  set (d := fresh (dom (dicts σ))).
  set (σ1 := {| fields := fields σ; classes := classes σ;
                dicts := <[d := ∅]> (dicts σ) |}).
  assert (cloning σ d σ1 ∅ ∅) as Hcl.
  { split; simpl; try done. by rewrite lookup_insert_eq. }
  destruct (create_cloned_field_runs Undefined BaseConfig empty_dict FieldInfo
              ModelField_new create_model populate_validators library
              σ rank bound Hclosed Hranked d (S fuel) l σ1 ∅ ∅ Hcl Hl)
    as (r & σ' & Hrun & Hr).
  { unfold unseen. by rewrite dom_empty_L, difference_empty_L. }
  exists r, σ'. split; [by rewrite create_cloned_field_new_dict|].
  destruct r as [l'|e]; [|done].
  destruct Hr as (memo & done & F & Hcl' & Hg & HF & HFdom & Hclone).
  exists memo, done, F. split; [done|]. split; [done|]. split; [done|].
  split; [exact (cloning_fields _ _ _ _ _ Hcl')|].
  split; [exact (cloning_classes _ _ _ _ _ Hcl')|].
  split; [exact (cloning_done _ _ _ _ _ Hcl')|].
  split; [rewrite (grows_done_dom _ _ _ _ _ _ _ _ Hg); set_solver|].
  split; [|exact (cloning_memo _ _ _ _ _ Hcl')].
  intros c F' Hc. by apply (grows_new _ _ _ _ _ _ _ _ Hg c F' Hc).
Qed.




End CloneTop.



